(** * mol-lang: the Mollang-to-C++ compiler of [src/compiler.cpp]

    A shallow embedding of the lexer, the symbol namer, the recursive-descent
    parser, the symbol collector and the code generator, followed by the
    properties of the compiler that are established on it.

    Conventions of the embedding.
    - A [std::string] is a [string] of the Standard Library: a sequence of
      bytes.  The Korean glyphs of the source are written as literals; each
      of them is three bytes long in UTF-8, as the source assumes.
    - A C++ exception is a value of [exn]; a function that may throw returns
      a [Res].
    - A cursor into an immutable sequence ([i] in [tokenize], [pos] in
      [Parser]) is represented by the part of the sequence that is still
      unread, so [code[i]] is the head of the unread text and [i++] drops it.
    - The [while] and [for] loops of the source are recursive functions on a
      [fuel] counter.  Running out of fuel is the result [out_of_fuel], which
      is no C++ exception; the entry points supply enough fuel, and this is
      proved below.
    - The four globals of the symbol namer are the record [Namer], threaded
      through every function that reads or writes them.
    - A [std::unique_ptr<ASTNode>] is a value of [ASTNode]: the null pointer
      [NullNode] or one of the derived structs. *)

From Stdlib Require Import String Ascii List ZArith Lia Bool.
From Stdlib Require Import DecimalString DecimalZ DecimalPos.
Import ListNotations.

Set Warnings "-register-all".

Open Scope string_scope.

(** ** Exceptions and results *)

Inductive exn : Type :=
| invalid_argument (what : string)
| out_of_range (what : string)
| runtime_error (what : string)
| null_dereference
| out_of_fuel.

Inductive Res (A : Type) : Type :=
| Ok (a : A)
| Err (e : exn).

Arguments Ok {A} a.
Arguments Err {A} e.

(** ** Byte strings *)

Module Str.

(** [s.substr(pos, n)] for [pos <= s.length()]. *)
Definition substr (s : string) (pos n : nat) : string := substring pos n s.

(** [s.rfind(p, 0) == 0]: [s] starts with [p]. *)
Definition starts_with (s p : string) : bool := prefix p s.

Fixpoint repeat (s : string) (n : nat) : string :=
  match n with
  | O => EmptyString
  | S k => s ++ repeat s k
  end.

Fixpoint concat_map {A : Type} (f : A -> string) (l : list A) : string :=
  match l with
  | [] => EmptyString
  | x :: r => f x ++ concat_map f r
  end.

Fixpoint contains (c : ascii) (s : string) : bool :=
  match s with
  | EmptyString => false
  | String d r => Ascii.eqb c d || contains c r
  end.

End Str.

(** ** Helper functions of the source *)

(** The [for] loop of [is_variable]: every three-byte span of the middle is
    the filler glyph.  [None] when the fuel runs out. *)
Fixpoint is_variable_loop (fuel : nat) (token : string) (i : nat) : option bool :=
  match fuel with
  | O => None
  | S fuel' =>
      if (i <? String.length token - 3)%nat then
        if negb (Str.substr token i 3 =? "아") then Some false
        else is_variable_loop fuel' token (i + 3)
      else Some true
  end.

Definition is_variable (token : string) : bool :=
  if token =? "밥" then true
  else if (6 <=? String.length token)%nat
          && Str.starts_with token "바"
          && (Str.substr token (String.length token - 3) 3 =? "압")
  then
    match is_variable_loop (String.length token) token 3 with
    | Some b => b
    | None => false
    end
  else false.

(** ** Tokenizer *)

(** [v.push_back(x)]. *)
Definition push_back {A : Type} (v : list A) (x : A) : list A := (v ++ [x])%list.

Inductive TokenType : Type :=
| KEYWORD | IDENTIFIER | NUMBER | STRING | SYMBOL | END_OF_FILE.

Record Token : Type := mkToken { type : TokenType; value : string }.

Definition TokenType_eqb (a b : TokenType) : bool :=
  match a, b with
  | KEYWORD, KEYWORD | IDENTIFIER, IDENTIFIER | NUMBER, NUMBER
  | STRING, STRING | SYMBOL, SYMBOL | END_OF_FILE, END_OF_FILE => true
  | _, _ => false
  end.

(** The double quote and the single quote, and the line feed. *)
Definition dquote : ascii := "034"%char.
Definition squote : ascii := "039"%char.
Definition dq : string := String dquote EmptyString.
Definition nl : string := String "010"%char EmptyString.

(** [isspace] in the "C" locale: space, and the bytes 9 to 13.  A byte
    above 127 is no space. *)
Definition isspace (c : ascii) : bool :=
  let n := N_of_ascii c in
  (n =? 32)%N || ((9 <=? n)%N && (n <=? 13)%N).

Definition isdigit (c : ascii) : bool :=
  let n := N_of_ascii c in
  (48 <=? n)%N && (n <=? 57)%N.

Definition INT_MAX : Z := 2147483647.
Definition INT_MIN : Z := -2147483648.

(** [std::stoi(str)]: [strtol] in base 10.  Leading white space is skipped,
    one sign is accepted, then the longest run of digits is read and what
    follows it is ignored.  No digit: [std::invalid_argument].  A value that
    does not fit an [int]: [std::out_of_range]. *)
Fixpoint skip_spaces (s : string) : string :=
  match s with
  | String c r => if isspace c then skip_spaces r else s
  | EmptyString => s
  end.

Fixpoint read_digits (s : string) (acc : Z) (seen : bool) : Z * bool :=
  match s with
  | String c r =>
      if isdigit c
      then read_digits r (10 * acc + (Z.of_N (N_of_ascii c) - 48)) true
      else (acc, seen)
  | EmptyString => (acc, seen)
  end.

Definition stoi (str : string) : Res Z :=
  let s := skip_spaces str in
  let '(negative, s) :=
    match s with
    | String "-" r => (true, r)
    | String "+" r => (false, r)
    | _ => (false, s)
    end in
  let '(magnitude, seen) := read_digits s 0 false in
  if negb seen then Err (invalid_argument "stoi")
  else
    let v := if negative then (- magnitude)%Z else magnitude in
    if ((INT_MIN <=? v)%Z && (v <=? INT_MAX)%Z) then Ok v
    else Err (out_of_range "stoi").

(** [while (i < code.length() && code[i] != quote) i++]: the span read and
    the unread text, which is empty or starts with the closing quote. *)
Fixpoint scan_quoted (quote : ascii) (code : string) : string * string :=
  match code with
  | String c r =>
      if negb (Ascii.eqb c quote)
      then let '(span, rest) := scan_quoted quote r in (String c span, rest)
      else (EmptyString, code)
  | EmptyString => (EmptyString, EmptyString)
  end.

(** [while (i < code.length() && !isspace(code[i]) && code[i] != '[' &&
    code[i] != ']') i++]. *)
Fixpoint scan_word (code : string) : string * string :=
  match code with
  | String c r =>
      if negb (isspace c) && negb (Ascii.eqb c "[") && negb (Ascii.eqb c "]")
      then let '(span, rest) := scan_word r in (String c span, rest)
      else (EmptyString, code)
  | EmptyString => (EmptyString, EmptyString)
  end.

Definition is_keyword (value : string) : bool :=
  (value =? "은") || (value =? "입") || (value =? "몰") || (value =? "캠프")
  || (value =? "퇴근") || (value =? "스크럼") || (value =? "뭐먹")
  || (value =? "덧셈") || (value =? "합") || (value =? "더하기")
  || (value =? "곱셈") || (value =? "곱")
  || (value =? "같") || (value =? "작") || (value =? "같작") || (value =? "작같")
  || (value =? "커서") || (value =? "지피티") || (value =? "제미나이")
  || (value =? "클로드") || (value =? "클라인") || (value =? "그록").

(** The body of the [for] loop of [tokenize], once per unit of fuel.
    [code] is the text from [i] on, [tokens] the vector built so far. *)
Fixpoint tokenize_loop (fuel : nat) (code : string) (tokens : list Token)
  : Res (list Token) :=
  match fuel with
  | O => Err out_of_fuel
  | S fuel' =>
      match code with
      | EmptyString => Ok tokens
      | String c rest =>
          if isspace c then tokenize_loop fuel' rest tokens
          else if Ascii.eqb c "[" || Ascii.eqb c "]" then
            tokenize_loop fuel' rest
              (push_back tokens (mkToken SYMBOL (String c EmptyString)))
          else if Ascii.eqb c dquote || Ascii.eqb c squote then
            let quote := c in
            let '(span, rest') := scan_quoted quote rest in
            let tokens := push_back tokens (mkToken STRING span) in
            match rest' with
            | String _ after => tokenize_loop fuel' after tokens
            | EmptyString => tokenize_loop fuel' rest' tokens
            end
          else
            let '(value, rest') := scan_word code in
            if value =? EmptyString then tokenize_loop fuel' rest' tokens
            else if is_keyword value then
              tokenize_loop fuel' rest' (push_back tokens (mkToken KEYWORD value))
            else if is_variable value then
              tokenize_loop fuel' rest' (push_back tokens (mkToken IDENTIFIER value))
            else
              match stoi value with
              | Ok _ =>
                  tokenize_loop fuel' rest' (push_back tokens (mkToken NUMBER value))
              | Err (invalid_argument _) =>
                  tokenize_loop fuel' rest'
                    (push_back tokens (mkToken IDENTIFIER value))
              | Err e => Err e
              end
      end
  end.

Definition tokenize (code : string) : Res (list Token) :=
  match tokenize_loop (S (String.length code)) code [] with
  | Ok tokens => Ok (push_back tokens (mkToken END_OF_FILE EmptyString))
  | Err e => Err e
  end.

(** ** The runtime preamble of the generated document *)

Definition preamble : string :=
"#include <iostream>
#include <string>
#include <vector>
#include <variant>
#include <stdexcept>

// A variant type to handle Mollang's dynamic types
struct MolObject {
    std::variant<std::monostate, int, std::string, bool> value;

    MolObject() : value(std::monostate{}) {}
    MolObject(int v) : value(v) {}
    MolObject(const std::string& v) : value(v) {}
    MolObject(const char* v) : value(std::string(v)) {}
    MolObject(bool v) : value(v) {}
};

// Overloads for operators
MolObject operator+(const MolObject& a, const MolObject& b) {
    if (std::holds_alternative<int>(a.value) && std::holds_alternative<int>(b.value)) {
        return MolObject(std::get<int>(a.value) + std::get<int>(b.value));
    }
    if (std::holds_alternative<std::string>(a.value) && std::holds_alternative<std::string>(b.value)) {
        return MolObject(std::get<std::string>(a.value) + std::get<std::string>(b.value));
    }
    throw std::runtime_error(" ++
dq ++
"Unsupported operand types for +" ++
dq ++
");
}

MolObject operator*(const MolObject& a, const MolObject& b) {
    if (std::holds_alternative<std::string>(a.value) && std::holds_alternative<int>(b.value)) {
        std::string s = " ++
dq ++
dq ++
";
        for (int i = 0; i < std::get<int>(b.value); ++i) {
            s += std::get<std::string>(a.value);
        }
        return MolObject(s);
    }
    if (std::holds_alternative<int>(a.value) && std::holds_alternative<int>(b.value)) {
        return MolObject(std::get<int>(a.value) * std::get<int>(b.value));
    }
    throw std::runtime_error(" ++
dq ++
"Unsupported operand types for *" ++
dq ++
");
}

MolObject operator<(const MolObject& a, const MolObject& b) {
    if (std::holds_alternative<int>(a.value) && std::holds_alternative<int>(b.value)) {
        return MolObject(std::get<int>(a.value) < std::get<int>(b.value));
    }
    throw std::runtime_error(" ++
dq ++
"Unsupported operand types for <" ++
dq ++
");
}

MolObject operator<=(const MolObject& a, const MolObject& b) {
    if (std::holds_alternative<int>(a.value) && std::holds_alternative<int>(b.value)) {
        return MolObject(std::get<int>(a.value) <= std::get<int>(b.value));
    }
    throw std::runtime_error(" ++
dq ++
"Unsupported operand types for <=" ++
dq ++
");
}

MolObject operator==(const MolObject& a, const MolObject& b) {
    if (std::holds_alternative<int>(a.value) && std::holds_alternative<int>(b.value)) {
        return MolObject(std::get<int>(a.value) == std::get<int>(b.value));
    }
    if (std::holds_alternative<std::string>(a.value) && std::holds_alternative<std::string>(b.value)) {
        return MolObject(std::get<std::string>(a.value) == std::get<std::string>(b.value));
    }
    return MolObject(false);
}

// Helper functions
void mollang_print(const MolObject& obj) {
    if (std::holds_alternative<int>(obj.value)) {
        std::cout << std::get<int>(obj.value);
    } else if (std::holds_alternative<std::string>(obj.value)) {
        std::cout << std::get<std::string>(obj.value);
    } else if (std::holds_alternative<bool>(obj.value)) {
        std::cout << (std::get<bool>(obj.value) ? " ++
dq ++
"true" ++
dq ++
" : " ++
dq ++
"false" ++
dq ++
");
    }
    std::cout << std::endl;
}

MolObject mollang_input() {
    std::string line;
    std::getline(std::cin, line);
    try {
        return MolObject(std::stoi(line));
    } catch (const std::invalid_argument&) {
        return MolObject(line);
    }
}
".

(** ** A state and exception monad

    [M S A] is a computation over a mutable state [S] that returns an [A] or
    throws; the state survives the exception, as a global does. *)

Definition M (S A : Type) : Type := S -> Res A * S.

Definition ret {S A : Type} (a : A) : M S A := fun s => (Ok a, s).

Definition throw {S A : Type} (e : exn) : M S A := fun s => (Err e, s).

Definition bind {S A B : Type} (m : M S A) (k : A -> M S B) : M S B :=
  fun s =>
    match m s with
    | (Ok a, s') => k a s'
    | (Err e, s') => (Err e, s')
    end.

Definition get {S : Type} : M S S := fun s => (Ok s, s).

Definition put {S : Type} (s : S) : M S unit := fun _ => (Ok tt, s).

Declare Scope monad_scope.
Delimit Scope monad_scope with monad.
Notation "x <- m ;; k" := (bind m (fun x => k))
  (at level 61, m at next level, right associativity) : monad_scope.
Notation "m ;; k" := (bind m (fun _ => k))
  (at level 61, right associativity) : monad_scope.
Open Scope monad_scope.

(** ** Symbol namer *)

(** [std::map<std::string, std::string>]: the entries in increasing order of
    their keys, as an iteration over the map visits them. *)
Module StdMap.

Definition t : Type := list (string * string).

Definition empty : t := [].

(** [m.find(k)]: the value at [k], or [None] for [m.end()]. *)
Fixpoint find (k : string) (m : t) : option string :=
  match m with
  | [] => None
  | (k', v') :: r => if k =? k' then Some v' else find k r
  end.

(** [m[k] = v]. *)
Fixpoint assign (k v : string) (m : t) : t :=
  match m with
  | [] => [(k, v)]
  | (k', v') :: r =>
      match String.compare k k' with
      | Eq => (k, v) :: r
      | Lt => (k, v) :: m
      | Gt => (k', v') :: assign k v r
      end
  end.

(** [m[k]] read: the value at [k]; a missing key is first inserted with
    the empty string. *)
Definition index (k : string) (m : t) : string * t :=
  match find k m with
  | Some v => (v, m)
  | None => (EmptyString, assign k EmptyString m)
  end.

End StdMap.

Record Namer : Type := mkNamer {
  variable_map : StdMap.t;
  var_counter : Z;
  function_map : StdMap.t;
  func_counter : Z
}.

(** [std::to_string] of an [int]. *)
Definition to_string (n : Z) : string := NilZero.string_of_int (Z.to_int n).

Definition get_cpp_var (mol_var : string) : M Namer string :=
  st <- get ;;
  (match StdMap.find mol_var (variable_map st) with
   | None =>
       put (mkNamer
              (StdMap.assign mol_var ("var_" ++ to_string (var_counter st))
                 (variable_map st))
              (var_counter st + 1) (function_map st) (func_counter st))
   | Some _ => ret tt
   end) ;;
  st <- get ;;
  let '(v, m) := StdMap.index mol_var (variable_map st) in
  put (mkNamer m (var_counter st) (function_map st) (func_counter st)) ;;
  ret v.

Definition get_cpp_func (mol_func : string) : M Namer string :=
  st <- get ;;
  (match StdMap.find mol_func (function_map st) with
   | None =>
       put (mkNamer (variable_map st) (var_counter st)
              (StdMap.assign mol_func ("func_" ++ to_string (func_counter st))
                 (function_map st))
              (func_counter st + 1))
   | Some _ => ret tt
   end) ;;
  st <- get ;;
  let '(v, m) := StdMap.index mol_func (function_map st) in
  put (mkNamer (variable_map st) (var_counter st) m (func_counter st)) ;;
  ret v.

(** ** AST *)

Inductive ASTNode : Type :=
| NullNode
| NumberNode (value : string)
| StringNode (value : string)
| VariableNode (name : string)
| InputNode
| BinaryOpNode (left : ASTNode) (op : string) (right : ASTNode)
| AssignNode (var_name : string) (expr : ASTNode)
| PrintNode (expr : ASTNode)
| IfNode (condition : ASTNode) (body : list ASTNode)
| WhileNode (condition : ASTNode) (body : list ASTNode)
| FuncDefNode (name : string) (body : list ASTNode)
| FuncCallNode (name : string)
| ReturnNode (expr : ASTNode).

(** [dynamic_cast<const FuncDefNode*>(node.get())] is not null. *)
Definition is_FuncDefNode (node : ASTNode) : bool :=
  match node with
  | FuncDefNode _ _ => true
  | _ => false
  end.

Section Statements.

Variable generate : ASTNode -> M Namer string.

(** [for (const auto& stmt : body) ss << indent << stmt->generate() << "\n"]:
    the text that the loop appends to the stream. *)
Fixpoint generate_body (indent : string) (body : list ASTNode)
  : M Namer string :=
  match body with
  | [] => ret EmptyString
  | stmt :: body' =>
      s <- generate stmt ;;
      ss <- generate_body indent body' ;;
      ret (indent ++ s ++ nl ++ ss)
  end.

End Statements.

(** The [generate] method of every node.  The operands of a [+] chain are
    evaluated from left to right. *)
Fixpoint generate (node : ASTNode) : M Namer string :=
  match node with
  | NullNode => throw null_dereference
  | NumberNode value => ret ("MolObject(" ++ value ++ ")")
  | StringNode value =>
      ret ("MolObject(std::string(" ++ dq ++ value ++ dq ++ "))")
  | VariableNode name => get_cpp_var name
  | InputNode => ret "mollang_input()"
  | BinaryOpNode left_ op right_ =>
      l <- generate left_ ;;
      r <- generate right_ ;;
      ret ("(" ++ l ++ " " ++ op ++ " " ++ r ++ ")")
  | AssignNode var_name expr =>
      v <- get_cpp_var var_name ;;
      e <- generate expr ;;
      ret (v ++ " = " ++ e ++ ";")
  | PrintNode expr =>
      e <- generate expr ;;
      ret ("mollang_print(" ++ e ++ ");")
  | IfNode condition body =>
      c <- generate condition ;;
      ss <- generate_body generate "    " body ;;
      ret ("if (std::get<bool>(" ++ c ++ ".value)) {" ++ nl ++ ss ++ "}")
  | WhileNode condition body =>
      c <- generate condition ;;
      ss <- generate_body generate "    " body ;;
      ret ("while (std::get<bool>(" ++ c ++ ".value)) {" ++ nl ++ ss ++ "}")
  | FuncDefNode name body =>
      f <- get_cpp_func name ;;
      ss <- generate_body generate EmptyString body ;;
      ret ("MolObject " ++ f ++ "() {" ++ nl ++ ss
           ++ "return MolObject();" ++ nl ++ "}")
  | FuncCallNode name =>
      f <- get_cpp_func name ;;
      ret (f ++ "();")
  | ReturnNode expr =>
      e <- generate expr ;;
      ret ("return " ++ e ++ ";")
  end.

(** ** Parser

    The state of a [Parser] is the part of [tokens] from [pos] on. *)

Definition Parser (A : Type) : Type := M (list Token) A.

Definition peek : Parser Token :=
  fun tokens =>
    match tokens with
    | [] =>
        (Err (runtime_error
                "Parser error: Unexpected end of file while peeking."),
         tokens)
    | t :: _ => (Ok t, tokens)
    end.

Definition consume : Parser Token :=
  fun tokens =>
    match tokens with
    | [] =>
        (Err (runtime_error
                "Parser error: Unexpected end of file while consuming."),
         tokens)
    | t :: rest => (Ok t, rest)
    end.

Definition get_operator (token : string) : Parser string :=
  if (token =? "덧셈") || (token =? "합") || (token =? "더하기") then ret "+"
  else if (token =? "곱셈") || (token =? "곱") then ret "*"
  else if token =? "같" then ret "=="
  else if token =? "작" then ret "<"
  else if (token =? "같작") || (token =? "작같") then ret "<="
  else throw (runtime_error ("Unknown operator: " ++ token)).

Definition parse_simple_expr : Parser ASTNode :=
  token <- consume ;;
  if TokenType_eqb (type token) NUMBER then ret (NumberNode (value token))
  else if TokenType_eqb (type token) STRING then ret (StringNode (value token))
  else if TokenType_eqb (type token) IDENTIFIER
  then ret (VariableNode (value token))
  else if value token =? "뭐먹" then ret InputNode
  else if value token =? "커서" then ret (StringNode "커서는 신이야")
  else if value token =? "지피티"
  then ret (StringNode "지피티는 요즘 애매해")
  else if value token =? "제미나이"
  then ret (StringNode "제미나이는 잘 따라가는중")
  else if value token =? "클로드"
  then ret (StringNode "클로드는 LLM 중 코딩 끝판왕")
  else if value token =? "클라인"
  then ret (StringNode "클라인도 레전드입니다… 꼭 쓰세요")
  else if value token =? "그록" then ret (StringNode "그록 누가씀?")
  else throw (runtime_error ("Invalid expression term: " ++ value token)).

(** The [while] loop of [parse_expression]. *)
Fixpoint parse_expression_loop (fuel : nat) (left_ : ASTNode)
  : Parser ASTNode :=
  match fuel with
  | O => throw out_of_fuel
  | S fuel' =>
      t <- peek ;;
      if TokenType_eqb (type t) KEYWORD then
        t <- peek ;;
        let op_token := value t in
        if (op_token =? "은") || (op_token =? "입") || (op_token =? "몰")
           || (op_token =? "스크럼") || (op_token =? "캠프")
           || (op_token =? "퇴근")
        then ret left_
        else
          t <- peek ;;
          if (value t =? "[") || (value t =? "]") then ret left_
          else
            consume ;;
            op <- get_operator op_token ;;
            right_ <- parse_simple_expr ;;
            parse_expression_loop fuel' (BinaryOpNode left_ op right_)
      else ret left_
  end.

Definition parse_expression (fuel : nat) : Parser ASTNode :=
  left_ <- parse_simple_expr ;;
  parse_expression_loop fuel left_.

Section StatementLoops.

Variable parse_statement : Parser ASTNode.

(** [while (more(peek())) statements.push_back(parse_statement())]. *)
Fixpoint parse_statements (more : Token -> bool) (fuel : nat)
  (statements : list ASTNode) : Parser (list ASTNode) :=
  match fuel with
  | O => throw out_of_fuel
  | S fuel' =>
      t <- peek ;;
      if more t then
        stmt <- parse_statement ;;
        parse_statements more fuel' (push_back statements stmt)
      else ret statements
  end.

Definition parse_block (fuel : nat) : Parser (list ASTNode) :=
  consume ;;
  statements <-
    parse_statements (fun t => negb (value t =? "]")) fuel [] ;;
  consume ;;
  ret statements.

End StatementLoops.

Fixpoint parse_statement (fuel : nat) : Parser ASTNode :=
  match fuel with
  | O => throw out_of_fuel
  | S fuel' =>
      token <- peek ;;
      if is_variable (value token) then
        t <- consume ;;
        let var_name := value t in
        consume ;;
        expr <- parse_expression fuel' ;;
        ret (AssignNode var_name expr)
      else if value token =? "스크럼" then
        consume ;;
        expr <- parse_expression fuel' ;;
        ret (PrintNode expr)
      else if value token =? "입" then
        consume ;;
        cond <- parse_expression fuel' ;;
        body <- parse_block (parse_statement fuel') fuel' ;;
        ret (IfNode cond body)
      else if value token =? "몰" then
        consume ;;
        cond <- parse_expression fuel' ;;
        body <- parse_block (parse_statement fuel') fuel' ;;
        ret (WhileNode cond body)
      else if Str.starts_with (value token) "캠프" then
        t <- consume ;;
        let func_name := value t in
        t <- peek ;;
        if value t =? "[" then
          body <- parse_block (parse_statement fuel') fuel' ;;
          ret (FuncDefNode func_name body)
        else ret (FuncCallNode func_name)
      else if value token =? "퇴근" then
        consume ;;
        expr <- parse_expression fuel' ;;
        ret (ReturnNode expr)
      else
        throw (runtime_error
                 ("Invalid statement start: '" ++ value token ++ "'"))
  end.

(** [Parser(tokens).parse()]. *)
Definition parse (tokens : list Token) : Res (list ASTNode) :=
  let fuel := S (length tokens) in
  fst (parse_statements (parse_statement fuel)
         (fun t => negb (TokenType_eqb (type t) END_OF_FILE)) fuel []
         tokens).

(** ** Code generator *)

Section Collect.

Variable collect_symbols : ASTNode -> M Namer unit.

(** [for (const auto& stmt : body) collect_symbols(stmt.get())]. *)
Fixpoint collect_body (body : list ASTNode) : M Namer unit :=
  match body with
  | [] => ret tt
  | stmt :: body' => collect_symbols stmt ;; collect_body body'
  end.

End Collect.

Fixpoint collect_symbols (node : ASTNode) : M Namer unit :=
  match node with
  | NullNode => ret tt
  | AssignNode var_name expr =>
      get_cpp_var var_name ;;
      collect_symbols expr
  | PrintNode expr => collect_symbols expr
  | IfNode condition body =>
      collect_symbols condition ;;
      collect_body collect_symbols body
  | WhileNode condition body =>
      collect_symbols condition ;;
      collect_body collect_symbols body
  | FuncDefNode name body =>
      get_cpp_func name ;;
      collect_body collect_symbols body
  | FuncCallNode name => get_cpp_func name ;; ret tt
  | ReturnNode expr => collect_symbols expr
  | BinaryOpNode left_ _ right_ =>
      collect_symbols left_ ;;
      collect_symbols right_
  | VariableNode name => get_cpp_var name ;; ret tt
  | NumberNode _ | StringNode _ | InputNode => ret tt
  end.

(** [ss << "MolObject " << pair.second << tail] for every entry. *)
Definition declarations (tail : string) (m : StdMap.t) : string :=
  Str.concat_map (fun pair => "MolObject " ++ snd pair ++ tail) m.

(** The loop over the function definitions of the top level. *)
Fixpoint generate_functions (ast : list ASTNode) : M Namer string :=
  match ast with
  | [] => ret EmptyString
  | node :: ast' =>
      s <- (if is_FuncDefNode node
            then (g <- generate node ;; ret (g ++ nl ++ nl))
            else ret EmptyString) ;;
      ss <- generate_functions ast' ;;
      ret (s ++ ss)
  end.

(** The loop that fills [main]. *)
Fixpoint generate_main (ast : list ASTNode) : M Namer string :=
  match ast with
  | [] => ret EmptyString
  | node :: ast' =>
      s <- (if negb (is_FuncDefNode node)
            then (g <- generate node ;; ret ("    " ++ g ++ nl))
            else ret EmptyString) ;;
      ss <- generate_main ast' ;;
      ret (s ++ ss)
  end.

Definition generate_cpp_code (ast : list ASTNode) : M Namer string :=
  st <- get ;;
  let prototypes := declarations ("();" ++ nl) (function_map st) in
  let globals := declarations (";" ++ nl) (variable_map st) in
  functions <- generate_functions ast ;;
  main <- generate_main ast ;;
  ret (preamble
       ++ prototypes ++ nl
       ++ globals ++ nl
       ++ functions
       ++ "int main() {" ++ nl
       ++ main
       ++ "    return 0;" ++ nl
       ++ "}" ++ nl).

(** ** Main compiler logic *)

Definition reset : Namer := mkNamer StdMap.empty 0 StdMap.empty 0.

Definition translate_to_cpp (mollang_code : string) : M Namer string :=
  put reset ;;
  match tokenize mollang_code with
  | Err e => throw e
  | Ok tokens =>
      match parse tokens with
      | Err e => throw e
      | Ok ast =>
          collect_body collect_symbols ast ;;
          generate_cpp_code ast
      end
  end.

(** * Properties *)

(** ** Byte strings *)

Lemma append_nil_r (s : string) : s ++ EmptyString = s.
Proof. induction s as [|c s IH]; simpl; [reflexivity | now rewrite IH]. Qed.

Lemma append_assoc (s1 s2 s3 : string) : (s1 ++ s2) ++ s3 = s1 ++ s2 ++ s3.
Proof. induction s1 as [|c s1 IH]; simpl; [reflexivity | now rewrite IH]. Qed.

Lemma length_append (s1 s2 : string) :
  String.length (s1 ++ s2) = String.length s1 + String.length s2.
Proof. induction s1 as [|c s1 IH]; simpl; [reflexivity | now rewrite IH]. Qed.

Lemma append_inj_l (s t1 t2 : string) : s ++ t1 = s ++ t2 -> t1 = t2.
Proof.
  induction s as [|c s IH]; simpl; intros H; [exact H|].
  injection H as H. now apply IH.
Qed.

(** ** The tokenizer has fuel enough *)

Lemma scan_quoted_rest (quote : ascii) (code : string) :
  String.length (snd (scan_quoted quote code)) <= String.length code.
Proof.
  induction code as [|c r IH]; simpl; [lia|].
  destruct (Ascii.eqb c quote); simpl; [lia|].
  destruct (scan_quoted quote r); simpl in *; lia.
Qed.

Lemma scan_word_rest (code : string) :
  String.length (snd (scan_word code)) <= String.length code.
Proof.
  induction code as [|c r IH]; simpl; [lia|].
  destruct (negb (isspace c) && negb (Ascii.eqb c "[")
            && negb (Ascii.eqb c "]")); simpl; [|lia].
  destruct (scan_word r); simpl in *; lia.
Qed.

(** A word that starts with a byte of a word is not empty, so the
    [continue] on an empty word is never taken. *)
Lemma scan_word_progress (c : ascii) (r : string) :
  isspace c = false -> (Ascii.eqb c "[" || Ascii.eqb c "]") = false ->
  exists span rest,
    scan_word (String c r) = (String c span, rest)
    /\ String.length rest <= String.length r.
Proof.
  intros Hs Hb. apply orb_false_elim in Hb as [Hb1 Hb2].
  simpl. rewrite Hs, Hb1, Hb2. simpl.
  pose proof (scan_word_rest r) as Hl.
  destruct (scan_word r) as [span rest]. simpl in Hl.
  now exists span, rest.
Qed.

Lemma tokenize_loop_fuel (fuel1 fuel2 : nat) (code : string)
  (tokens : list Token) :
  String.length code < fuel1 -> String.length code < fuel2 ->
  tokenize_loop fuel1 code tokens = tokenize_loop fuel2 code tokens.
Proof.
  revert fuel2 code tokens.
  induction fuel1 as [|fuel1 IH]; intros fuel2 code tokens H1 H2; [lia|].
  destruct fuel2 as [|fuel2]; [lia|].
  destruct code as [|c rest]; [reflexivity|].
  cbn [tokenize_loop]. simpl in H1, H2.
  destruct (isspace c) eqn:Hs; [apply IH; lia|].
  destruct (Ascii.eqb c "[" || Ascii.eqb c "]") eqn:Hb; [apply IH; lia|].
  destruct (Ascii.eqb c dquote || Ascii.eqb c squote) eqn:Hq.
  - pose proof (scan_quoted_rest c rest) as Hl.
    destruct (scan_quoted c rest) as [span rest']. simpl in Hl.
    destruct rest' as [|c' after]; apply IH; simpl in *; lia.
  - destruct (scan_word_progress c rest Hs Hb) as (span & rest' & Hw & Hl).
    rewrite Hw. cbn [String.eqb].
    destruct (is_keyword (String c span)); [apply IH; lia|].
    destruct (is_variable (String c span)); [apply IH; lia|].
    destruct (stoi (String c span)) as [z|[]]; try reflexivity;
      apply IH; lia.
Qed.

Lemma stoi_cases (str : string) :
  (exists n, stoi str = Ok n)
  \/ stoi str = Err (invalid_argument "stoi")
  \/ stoi str = Err (out_of_range "stoi").
Proof.
  unfold stoi.
  match goal with
  | |- context [let '(_, _) := ?x in _] => destruct x as [negative s]
  end.
  destruct (read_digits s 0 false) as [magnitude [|]]; cbn [negb]; [|auto].
  match goal with
  | |- context [if ?b then _ else _] => destruct b
  end; eauto.
Qed.

(** The only exception of [tokenize] is the [std::out_of_range] of
    [std::stoi]; the fuel is never used up. *)
Lemma tokenize_loop_exception (fuel : nat) (code : string)
  (tokens : list Token) (e : exn) :
  String.length code < fuel ->
  tokenize_loop fuel code tokens = Err e -> e = out_of_range "stoi".
Proof.
  revert code tokens.
  induction fuel as [|fuel IH]; intros code tokens Hl; [lia|].
  destruct code as [|c rest]; [discriminate|].
  cbn [tokenize_loop]. simpl in Hl.
  destruct (isspace c) eqn:Hs; [apply IH; lia|].
  destruct (Ascii.eqb c "[" || Ascii.eqb c "]") eqn:Hb; [apply IH; lia|].
  destruct (Ascii.eqb c dquote || Ascii.eqb c squote) eqn:Hq.
  - pose proof (scan_quoted_rest c rest) as Hr.
    destruct (scan_quoted c rest) as [span rest']. simpl in Hr.
    destruct rest' as [|c' after]; apply IH; simpl in *; lia.
  - destruct (scan_word_progress c rest Hs Hb) as (span & rest' & Hw & Hr).
    rewrite Hw. cbn [String.eqb].
    destruct (is_keyword (String c span)); [apply IH; lia|].
    destruct (is_variable (String c span)); [apply IH; lia|].
    destruct (stoi_cases (String c span)) as [[n ->]|[-> | ->]];
      [apply IH; lia | apply IH; lia | congruence].
Qed.

Lemma tokenize_exception (code : string) (e : exn) :
  tokenize code = Err e -> e = out_of_range "stoi".
Proof.
  unfold tokenize.
  destruct (tokenize_loop (S (String.length code)) code []) as [ts|e']
    eqn:E; [discriminate|].
  intros [= <-]. apply (tokenize_loop_exception _ _ _ _ (Nat.lt_succ_diag_r _) E).
Qed.

(** ** The parser: fuel, progress and the shape of its trees *)

(** No null pointer anywhere in the tree. *)
Fixpoint well_formed (node : ASTNode) : bool :=
  match node with
  | NullNode => false
  | NumberNode _ | StringNode _ | VariableNode _ | InputNode
  | FuncCallNode _ => true
  | BinaryOpNode left_ _ right_ => well_formed left_ && well_formed right_
  | AssignNode _ expr | PrintNode expr | ReturnNode expr => well_formed expr
  | IfNode condition body | WhileNode condition body =>
      well_formed condition && forallb well_formed body
  | FuncDefNode _ body => forallb well_formed body
  end.

(** What a run of a parsing function on [tokens] is checked against: it
    throws a [std::runtime_error], or it returns a value that satisfies [P]
    after reading at least [used] tokens, the unread ones being the rest of
    [tokens]. *)
Definition parses {A : Type} (used : nat) (P : A -> Prop) (p : Parser A)
  (tokens : list Token) : Prop :=
  match p tokens with
  | (Ok a, rest) =>
      (exists read, tokens = (read ++ rest)%list /\ used <= length read) /\ P a
  | (Err e, _) => exists what, e = runtime_error what
  end.

Lemma parses_bind {A B : Type} (u1 u2 : nat) (P : A -> Prop) (Q : B -> Prop)
  (p : Parser A) (k : A -> Parser B) (tokens : list Token) :
  parses u1 P p tokens ->
  (forall a rest, P a -> length rest + u1 <= length tokens ->
                  parses u2 Q (k a) rest) ->
  parses (u1 + u2) Q (bind p k) tokens.
Proof.
  unfold parses, bind. intros Hp Hk.
  destruct (p tokens) as [[a|e] rest]; [|exact Hp].
  destruct Hp as [(read1 & E1 & Hl) Ha].
  assert (length rest + u1 <= length tokens) as Hlen
    by (rewrite E1, length_app; lia).
  specialize (Hk a rest Ha Hlen).
  destruct (k a rest) as [[b|e] rest']; [|exact Hk].
  destruct Hk as [(read2 & E2 & Hl') Hb]. split; [|exact Hb].
  exists (read1 ++ read2)%list. rewrite <- app_assoc, <- E2, length_app.
  split; [exact E1 | lia].
Qed.

Lemma parses_weaken {A : Type} (u u' : nat) (P Q : A -> Prop) (p : Parser A)
  (tokens : list Token) :
  parses u P p tokens -> u' <= u -> (forall a, P a -> Q a) ->
  parses u' Q p tokens.
Proof.
  unfold parses. intros Hp Hu HPQ.
  destruct (p tokens) as [[a|e] rest]; [|exact Hp].
  destruct Hp as [(read & E & Hl) Ha]. split; [|auto].
  exists read. split; [exact E | lia].
Qed.

Lemma parses_ret {A : Type} (P : A -> Prop) (a : A) (tokens : list Token) :
  P a -> parses 0 P (ret a) tokens.
Proof.
  unfold parses, ret. intros Ha. split; [|exact Ha].
  exists []. split; [reflexivity | simpl; lia].
Qed.

Lemma parses_throw {A : Type} (u : nat) (P : A -> Prop) (what : string)
  (tokens : list Token) :
  parses u P (throw (runtime_error what)) tokens.
Proof. unfold parses, throw. now exists what. Qed.

Lemma parses_peek (tokens : list Token) :
  parses 0 (fun t => exists rest, tokens = t :: rest) peek tokens.
Proof.
  unfold parses, peek. destruct tokens as [|t rest]; [eauto|].
  split; [|eauto]. exists []. split; [reflexivity | simpl; lia].
Qed.

Lemma parses_consume (tokens : list Token) :
  parses 1 (fun _ => True) consume tokens.
Proof.
  unfold parses, consume. destruct tokens as [|t rest]; [eauto|].
  split; [|exact I]. exists [t]. split; [reflexivity | simpl; lia].
Qed.

Lemma parses_get_operator (token : string) (tokens : list Token) :
  parses 0 (fun _ => True) (get_operator token) tokens.
Proof.
  unfold get_operator.
  repeat match goal with
         | |- context [if ?b then _ else _] => destruct b
         end;
    first [apply parses_ret; exact I | apply parses_throw].
Qed.

Definition wf_node (node : ASTNode) : Prop := well_formed node = true.
Definition wf_nodes (nodes : list ASTNode) : Prop :=
  forallb well_formed nodes = true.

Lemma parses_simple_expr (tokens : list Token) :
  parses 1 wf_node parse_simple_expr tokens.
Proof.
  unfold parse_simple_expr.
  apply (parses_bind 1 0 (fun _ => True)); [apply parses_consume|].
  intros token rest _ _.
  repeat match goal with
         | |- context [if ?b then _ else _] => destruct b
         end;
    first [apply parses_ret; reflexivity | apply parses_throw].
Qed.

Lemma parses_expression_loop (fuel : nat) (left_ : ASTNode)
  (tokens : list Token) :
  length tokens < fuel -> wf_node left_ ->
  parses 0 wf_node (parse_expression_loop fuel left_) tokens.
Proof.
  revert left_ tokens.
  induction fuel as [|fuel IH]; intros left_ tokens Hf Hl; [lia|].
  cbn [parse_expression_loop].
  apply (parses_bind 0 0 (fun _ => True));
    [eapply parses_weaken; [apply parses_peek | lia | auto]|].
  intros t rest _ Hr.
  destruct (TokenType_eqb (type t) KEYWORD); [|now apply parses_ret].
  apply (parses_bind 0 0 (fun _ => True));
    [eapply parses_weaken; [apply parses_peek | lia | auto]|].
  intros t1 rest1 _ Hr1.
  match goal with
  | |- context [if ?b then _ else _] => destruct b
  end; [now apply parses_ret|].
  apply (parses_bind 0 0 (fun _ => True));
    [eapply parses_weaken; [apply parses_peek | lia | auto]|].
  intros t2 rest2 _ Hr2.
  match goal with
  | |- context [if ?b then _ else _] => destruct b
  end; [now apply parses_ret|].
  apply (parses_weaken 2 0 wf_node); [|lia|auto].
  apply (parses_bind 1 1 (fun _ => True)); [apply parses_consume|].
  intros _ rest3 _ Hr3.
  apply (parses_bind 0 1 (fun _ => True)); [apply parses_get_operator|].
  intros op rest4 _ Hr4.
  apply (parses_bind 1 0 wf_node); [apply parses_simple_expr|].
  intros right_ rest5 Hright Hr5.
  apply IH; [lia|].
  unfold wf_node in *. simpl. now rewrite Hl, Hright.
Qed.

Lemma parses_expression (fuel : nat) (tokens : list Token) :
  length tokens <= fuel ->
  parses 1 wf_node (parse_expression fuel) tokens.
Proof.
  intros Hf. unfold parse_expression.
  apply (parses_bind 1 0 wf_node); [apply parses_simple_expr|].
  intros left_ rest Hl Hr. apply parses_expression_loop; [lia | exact Hl].
Qed.

Lemma wf_nodes_push_back (statements : list ASTNode) (stmt : ASTNode) :
  wf_nodes statements -> wf_node stmt -> wf_nodes (push_back statements stmt).
Proof.
  unfold wf_nodes, wf_node, push_back. intros Hs Hn.
  rewrite forallb_app, Hs. simpl. now rewrite Hn.
Qed.

Lemma parses_statements (ps : Parser ASTNode) (more : Token -> bool)
  (fuel : nat) (statements : list ASTNode) (tokens : list Token) :
  (forall toks, length toks <= length tokens -> parses 1 wf_node ps toks) ->
  length tokens < fuel -> wf_nodes statements ->
  parses 0 wf_nodes (parse_statements ps more fuel statements) tokens.
Proof.
  revert statements tokens.
  induction fuel as [|fuel IH]; intros statements tokens Hps Hf Hs; [lia|].
  cbn [parse_statements].
  apply (parses_bind 0 0 (fun _ => True));
    [eapply parses_weaken; [apply parses_peek | lia | auto]|].
  intros t rest _ Hr.
  destruct (more t); [|now apply parses_ret].
  apply (parses_weaken 1 0 wf_nodes); [|lia|auto].
  apply (parses_bind 1 0 wf_node); [apply Hps; lia|].
  intros stmt rest' Hstmt Hr'.
  apply IH; [intros toks Ht; apply Hps; lia | lia |].
  now apply wf_nodes_push_back.
Qed.

Lemma parses_block (ps : Parser ASTNode) (fuel : nat) (tokens : list Token) :
  (forall toks, length toks < length tokens -> parses 1 wf_node ps toks) ->
  length tokens <= fuel ->
  parses 2 wf_nodes (parse_block ps fuel) tokens.
Proof.
  intros Hps Hf. unfold parse_block.
  apply (parses_bind 1 1 (fun _ => True)); [apply parses_consume|].
  intros _ rest _ Hr.
  apply (parses_bind 0 1 wf_nodes).
  - apply parses_statements; [intros toks Ht; apply Hps; lia | lia |].
    reflexivity.
  - intros statements rest' Hs Hr'.
    apply (parses_bind 1 0 (fun _ => True)); [apply parses_consume|].
    intros _ rest'' _ _. now apply parses_ret.
Qed.

Lemma parses_statement (fuel : nat) (tokens : list Token) :
  length tokens < fuel -> parses 1 wf_node (parse_statement fuel) tokens.
Proof.
  revert tokens.
  induction fuel as [|fuel IH]; intros tokens Hf; [lia|].
  assert (Hblock : forall toks, length toks <= fuel ->
            parses 2 wf_nodes (parse_block (parse_statement fuel) fuel) toks).
  { intros toks Ht. apply parses_block; [|exact Ht].
    intros toks' Ht'. apply IH. lia. }
  assert (Hexpr : forall toks, length toks <= fuel ->
            parses 1 wf_node (parse_expression fuel) toks)
    by (intros; now apply parses_expression).
  cbn [parse_statement].
  apply (parses_bind 0 1 (fun _ => True));
    [eapply parses_weaken; [apply parses_peek | lia | auto]|].
  intros token rest _ Hr.
  destruct (is_variable (value token)).
  { apply (parses_weaken 3 1 wf_node); [|lia|auto].
    apply (parses_bind 1 2 (fun _ => True)); [apply parses_consume|].
    intros t r1 _ H1.
    apply (parses_bind 1 1 (fun _ => True)); [apply parses_consume|].
    intros _ r2 _ H2.
    apply (parses_bind 1 0 wf_node); [apply Hexpr; lia|].
    intros expr r3 He H3. now apply parses_ret. }
  destruct (value token =? "스크럼").
  { apply (parses_weaken 2 1 wf_node); [|lia|auto].
    apply (parses_bind 1 1 (fun _ => True)); [apply parses_consume|].
    intros _ r1 _ H1.
    apply (parses_bind 1 0 wf_node); [apply Hexpr; lia|].
    intros expr r2 He H2. now apply parses_ret. }
  destruct (value token =? "입").
  { apply (parses_weaken 4 1 wf_node); [|lia|auto].
    apply (parses_bind 1 3 (fun _ => True)); [apply parses_consume|].
    intros _ r1 _ H1.
    apply (parses_bind 1 2 wf_node); [apply Hexpr; lia|].
    intros cond r2 Hc H2.
    apply (parses_bind 2 0 wf_nodes); [apply Hblock; lia|].
    intros body r3 Hb H3. apply parses_ret.
    unfold wf_node, wf_nodes in *. simpl. now rewrite Hc, Hb. }
  destruct (value token =? "몰").
  { apply (parses_weaken 4 1 wf_node); [|lia|auto].
    apply (parses_bind 1 3 (fun _ => True)); [apply parses_consume|].
    intros _ r1 _ H1.
    apply (parses_bind 1 2 wf_node); [apply Hexpr; lia|].
    intros cond r2 Hc H2.
    apply (parses_bind 2 0 wf_nodes); [apply Hblock; lia|].
    intros body r3 Hb H3. apply parses_ret.
    unfold wf_node, wf_nodes in *. simpl. now rewrite Hc, Hb. }
  destruct (Str.starts_with (value token) "캠프").
  { apply (parses_bind 1 0 (fun _ => True)); [apply parses_consume|].
    intros t r1 _ H1.
    apply (parses_bind 0 0 (fun _ => True));
      [eapply parses_weaken; [apply parses_peek | lia | auto]|].
    intros t' r2 _ H2.
    destruct (value t' =? "["); [|now apply parses_ret].
    apply (parses_weaken 2 0 wf_node); [|lia|auto].
    apply (parses_bind 2 0 wf_nodes); [apply Hblock; lia|].
    intros body r3 Hb H3. now apply parses_ret. }
  destruct (value token =? "퇴근").
  { apply (parses_weaken 2 1 wf_node); [|lia|auto].
    apply (parses_bind 1 1 (fun _ => True)); [apply parses_consume|].
    intros _ r1 _ H1.
    apply (parses_bind 1 0 wf_node); [apply Hexpr; lia|].
    intros expr r2 He H2. now apply parses_ret. }
  apply parses_throw.
Qed.

(** [parse] throws a [std::runtime_error] or returns trees without a null
    pointer: the fuel it supplies is never used up. *)
Lemma parse_result (tokens : list Token) :
  match parse tokens with
  | Ok ast => wf_nodes ast
  | Err e => exists what, e = runtime_error what
  end.
Proof.
  unfold parse.
  pose proof (parses_statements (parse_statement (S (length tokens)))
                (fun t => negb (TokenType_eqb (type t) END_OF_FILE))
                (S (length tokens)) [] tokens) as H.
  unfold parses in H.
  destruct (parse_statements _ _ _ _ tokens) as [[ast|e] rest]; simpl;
    apply H; try reflexivity; try lia;
    intros toks Ht; apply parses_statement; lia.
Qed.

(** ** The symbol namer *)

Lemma compare_refl (s : string) : String.compare s s = Eq.
Proof.
  induction s as [|c s IH]; simpl; [reflexivity|].
  unfold Ascii.compare. now rewrite N.compare_refl.
Qed.

Lemma compare_neq (k k' : string) : String.compare k k' <> Eq -> k <> k'.
Proof. intros H E. subst k'. now rewrite compare_refl in H. Qed.

Lemma find_assign_eq (k v : string) (m : StdMap.t) :
  StdMap.find k (StdMap.assign k v m) = Some v.
Proof.
  induction m as [|[k' v'] m IH]; simpl.
  - now rewrite String.eqb_refl.
  - destruct (String.compare k k') eqn:Hc; simpl.
    + now rewrite String.eqb_refl.
    + now rewrite String.eqb_refl.
    + assert (k <> k') as Hn by (apply compare_neq; congruence).
      apply String.eqb_neq in Hn. now rewrite Hn.
Qed.

Lemma find_assign_neq (k k0 v : string) (m : StdMap.t) :
  k <> k0 -> StdMap.find k0 (StdMap.assign k v m) = StdMap.find k0 m.
Proof.
  intros Hn. assert ((k0 =? k) = false) as Hb
    by (apply String.eqb_neq; congruence).
  induction m as [|[k' v'] m IH]; simpl.
  - now rewrite Hb.
  - destruct (String.compare k k') eqn:Hc; simpl.
    + apply String.compare_eq_iff in Hc. subst k'. now rewrite Hb.
    + now rewrite Hb.
    + now rewrite IH.
Qed.

Lemma get_cpp_var_eq (mol_var : string) (st : Namer) :
  get_cpp_var mol_var st =
  match StdMap.find mol_var (variable_map st) with
  | Some v => (Ok v, st)
  | None =>
      let name := "var_" ++ to_string (var_counter st) in
      (Ok name,
       mkNamer (StdMap.assign mol_var name (variable_map st))
         (var_counter st + 1) (function_map st) (func_counter st))
  end.
Proof.
  destruct st as [vm vc fm fc].
  unfold get_cpp_var, bind, get, put, ret, StdMap.index. cbn [variable_map
    var_counter function_map func_counter].
  destruct (StdMap.find mol_var vm) as [v|] eqn:Hf;
    cbn [variable_map var_counter function_map func_counter].
  - now rewrite Hf.
  - now rewrite find_assign_eq.
Qed.

Lemma get_cpp_func_eq (mol_func : string) (st : Namer) :
  get_cpp_func mol_func st =
  match StdMap.find mol_func (function_map st) with
  | Some v => (Ok v, st)
  | None =>
      let name := "func_" ++ to_string (func_counter st) in
      (Ok name,
       mkNamer (variable_map st) (var_counter st)
         (StdMap.assign mol_func name (function_map st))
         (func_counter st + 1))
  end.
Proof.
  destruct st as [vm vc fm fc].
  unfold get_cpp_func, bind, get, put, ret, StdMap.index. cbn [variable_map
    var_counter function_map func_counter].
  destruct (StdMap.find mol_func fm) as [v|] eqn:Hf;
    cbn [variable_map var_counter function_map func_counter].
  - now rewrite Hf.
  - now rewrite find_assign_eq.
Qed.

(** [std::to_string] gives different texts for different numbers. *)
Lemma to_int_not_nil (n : Z) :
  Z.to_int n <> Decimal.Pos Decimal.Nil /\ Z.to_int n <> Decimal.Neg Decimal.Nil.
Proof.
  destruct n as [|p|p]; simpl; split; try discriminate; intros H;
    injection H as H; now apply DecimalPos.Unsigned.to_uint_nonnil in H.
Qed.

Lemma to_string_inj (n m : Z) : to_string n = to_string m -> n = m.
Proof.
  unfold to_string. intros H.
  apply DecimalZ.to_int_inj.
  destruct (to_int_not_nil n) as [Hn1 Hn2].
  destruct (to_int_not_nil m) as [Hm1 Hm2].
  pose proof (NilZero.isi (Z.to_int n) Hn1 Hn2) as En.
  pose proof (NilZero.isi (Z.to_int m) Hm1 Hm2) as Em.
  rewrite H in En. congruence.
Qed.

(** The state of the namer within one compilation: every generated name is
    the prefix of its map followed by a number below the counter, and no two
    source names share one. *)
Definition names_inv (pre : string) (m : StdMap.t) (counter : Z) : Prop :=
  (0 <= counter)%Z
  /\ (forall k v, StdMap.find k m = Some v ->
                  exists i, (0 <= i < counter)%Z /\ v = pre ++ to_string i)
  /\ (forall k1 k2 v, StdMap.find k1 m = Some v -> StdMap.find k2 m = Some v ->
                      k1 = k2).

Definition namer_inv (st : Namer) : Prop :=
  names_inv "var_" (variable_map st) (var_counter st)
  /\ names_inv "func_" (function_map st) (func_counter st).

Lemma namer_inv_reset : namer_inv reset.
Proof.
  split; (split; [simpl; lia | split; simpl; intros; discriminate]).
Qed.

Lemma names_inv_fresh (pre k : string) (m : StdMap.t) (counter : Z) :
  names_inv pre m counter -> StdMap.find k m = None ->
  names_inv pre (StdMap.assign k (pre ++ to_string counter) m) (counter + 1).
Proof.
  intros (Hc & Hv & Hi) Hk. split; [lia|]. split.
  - intros k0 v. destruct (String.eqb_spec k k0) as [<-|Hn].
    + rewrite find_assign_eq. intros [= <-]. exists counter. split; [lia|auto].
    + rewrite find_assign_neq by exact Hn. intros Hf.
      destruct (Hv _ _ Hf) as (i & Hi' & ->). exists i. split; [lia|auto].
  - intros k1 k2 v.
    destruct (String.eqb_spec k k1) as [<-|Hn1];
      destruct (String.eqb_spec k k2) as [<-|Hn2]; auto.
    + rewrite find_assign_eq, find_assign_neq by exact Hn2.
      intros [= <-] Hf. destruct (Hv _ _ Hf) as (i & Hi' & E).
      apply append_inj_l, to_string_inj in E. lia.
    + rewrite find_assign_eq, find_assign_neq by exact Hn1.
      intros Hf [= <-]. destruct (Hv _ _ Hf) as (i & Hi' & E).
      apply append_inj_l, to_string_inj in E. lia.
    + rewrite !find_assign_neq by assumption. apply Hi.
Qed.

Lemma get_cpp_var_inv (mol_var : string) (st : Namer) :
  namer_inv st -> namer_inv (snd (get_cpp_var mol_var st)).
Proof.
  intros [Hv Hf]. rewrite get_cpp_var_eq.
  destruct (StdMap.find mol_var (variable_map st)) eqn:E; simpl.
  - now split.
  - split; [exact (names_inv_fresh "var_" _ _ _ Hv E) | exact Hf].
Qed.

Lemma get_cpp_func_inv (mol_func : string) (st : Namer) :
  namer_inv st -> namer_inv (snd (get_cpp_func mol_func st)).
Proof.
  intros [Hv Hf]. rewrite get_cpp_func_eq.
  destruct (StdMap.find mol_func (function_map st)) eqn:E; simpl.
  - now split.
  - split; [exact Hv | exact (names_inv_fresh "func_" _ _ _ Hf E)].
Qed.

(** [extends st st']: every name given in [st] is still given in [st']. *)
Definition extends (st st' : Namer) : Prop :=
  (forall k v, StdMap.find k (variable_map st) = Some v ->
               StdMap.find k (variable_map st') = Some v)
  /\ (forall k v, StdMap.find k (function_map st) = Some v ->
                  StdMap.find k (function_map st') = Some v).

Lemma extends_refl (st : Namer) : extends st st.
Proof. split; auto. Qed.

Lemma extends_trans (st1 st2 st3 : Namer) :
  extends st1 st2 -> extends st2 st3 -> extends st1 st3.
Proof. intros [H1 H2] [H3 H4]. split; auto. Qed.

Lemma get_cpp_var_known (mol_var v : string) (st : Namer) :
  StdMap.find mol_var (variable_map st) = Some v ->
  get_cpp_var mol_var st = (Ok v, st).
Proof. intros H. now rewrite get_cpp_var_eq, H. Qed.

Lemma get_cpp_func_known (mol_func v : string) (st : Namer) :
  StdMap.find mol_func (function_map st) = Some v ->
  get_cpp_func mol_func st = (Ok v, st).
Proof. intros H. now rewrite get_cpp_func_eq, H. Qed.

Lemma get_cpp_var_run (mol_var : string) (st : Namer) :
  exists v st',
    get_cpp_var mol_var st = (Ok v, st')
    /\ StdMap.find mol_var (variable_map st') = Some v
    /\ extends st st'
    /\ function_map st' = function_map st
    /\ func_counter st' = func_counter st.
Proof.
  rewrite get_cpp_var_eq.
  destruct (StdMap.find mol_var (variable_map st)) as [v|] eqn:E.
  - exists v, st. repeat split; auto.
  - cbv zeta. eexists _, _. split; [reflexivity|].
    cbn [variable_map var_counter function_map func_counter].
    split; [apply find_assign_eq|]. repeat split; auto.
    intros k v Hk. cbn [variable_map function_map].
    rewrite find_assign_neq; [exact Hk | congruence].
Qed.

Lemma get_cpp_func_run (mol_func : string) (st : Namer) :
  exists v st',
    get_cpp_func mol_func st = (Ok v, st')
    /\ StdMap.find mol_func (function_map st') = Some v
    /\ extends st st'
    /\ variable_map st' = variable_map st
    /\ var_counter st' = var_counter st.
Proof.
  rewrite get_cpp_func_eq.
  destruct (StdMap.find mol_func (function_map st)) as [v|] eqn:E.
  - exists v, st. repeat split; auto.
  - cbv zeta. eexists _, _. split; [reflexivity|].
    cbn [variable_map var_counter function_map func_counter].
    split; [apply find_assign_eq|]. repeat split; auto.
    intros k v Hk. cbn [variable_map function_map].
    rewrite find_assign_neq; [exact Hk | congruence].
Qed.

Lemma var_name_not_func_name (st : Namer) (a b va fb : string) :
  namer_inv st ->
  StdMap.find a (variable_map st) = Some va ->
  StdMap.find b (function_map st) = Some fb ->
  va <> fb.
Proof.
  intros [(_ & Hv & _) (_ & Hf & _)] Ha Hb.
  destruct (Hv _ _ Ha) as (i & _ & ->).
  destruct (Hf _ _ Hb) as (j & _ & ->). discriminate.
Qed.

(** ** Trees *)

Section ASTNode_induction.

Variable P : ASTNode -> Prop.

Hypothesis P_Null : P NullNode.
Hypothesis P_Number : forall value, P (NumberNode value).
Hypothesis P_String : forall value, P (StringNode value).
Hypothesis P_Variable : forall name, P (VariableNode name).
Hypothesis P_Input : P InputNode.
Hypothesis P_BinaryOp : forall left_ op right_,
    P left_ -> P right_ -> P (BinaryOpNode left_ op right_).
Hypothesis P_Assign : forall var_name expr,
    P expr -> P (AssignNode var_name expr).
Hypothesis P_Print : forall expr, P expr -> P (PrintNode expr).
Hypothesis P_If : forall condition body,
    P condition -> Forall P body -> P (IfNode condition body).
Hypothesis P_While : forall condition body,
    P condition -> Forall P body -> P (WhileNode condition body).
Hypothesis P_FuncDef : forall name body,
    Forall P body -> P (FuncDefNode name body).
Hypothesis P_FuncCall : forall name, P (FuncCallNode name).
Hypothesis P_Return : forall expr, P expr -> P (ReturnNode expr).

Fixpoint ASTNode_nested_ind (node : ASTNode) : P node :=
  let all :=
    fix all (body : list ASTNode) : Forall P body :=
      match body with
      | [] => Forall_nil P
      | stmt :: body' =>
          Forall_cons stmt (ASTNode_nested_ind stmt) (all body')
      end in
  match node with
  | NullNode => P_Null
  | NumberNode value => P_Number value
  | StringNode value => P_String value
  | VariableNode name => P_Variable name
  | InputNode => P_Input
  | BinaryOpNode left_ op right_ =>
      P_BinaryOp left_ op right_ (ASTNode_nested_ind left_)
        (ASTNode_nested_ind right_)
  | AssignNode var_name expr =>
      P_Assign var_name expr (ASTNode_nested_ind expr)
  | PrintNode expr => P_Print expr (ASTNode_nested_ind expr)
  | IfNode condition body =>
      P_If condition body (ASTNode_nested_ind condition) (all body)
  | WhileNode condition body =>
      P_While condition body (ASTNode_nested_ind condition) (all body)
  | FuncDefNode name body => P_FuncDef name body (all body)
  | FuncCallNode name => P_FuncCall name
  | ReturnNode expr => P_Return expr (ASTNode_nested_ind expr)
  end.

End ASTNode_induction.

Definition is_some {A : Type} (o : option A) : bool :=
  match o with
  | Some _ => true
  | None => false
  end.

(** Every name that occurs in the tree has its generated name in [st]. *)
Fixpoint registered (st : Namer) (node : ASTNode) : bool :=
  match node with
  | NullNode | NumberNode _ | StringNode _ | InputNode => true
  | VariableNode name => is_some (StdMap.find name (variable_map st))
  | BinaryOpNode left_ _ right_ => registered st left_ && registered st right_
  | AssignNode var_name expr =>
      is_some (StdMap.find var_name (variable_map st)) && registered st expr
  | PrintNode expr | ReturnNode expr => registered st expr
  | IfNode condition body | WhileNode condition body =>
      registered st condition && forallb (registered st) body
  | FuncDefNode name body =>
      is_some (StdMap.find name (function_map st))
      && forallb (registered st) body
  | FuncCallNode name => is_some (StdMap.find name (function_map st))
  end.

Lemma is_some_find_extends_var (st st' : Namer) (k : string) :
  extends st st' ->
  is_some (StdMap.find k (variable_map st)) = true ->
  is_some (StdMap.find k (variable_map st')) = true.
Proof.
  intros [H _]. destruct (StdMap.find k (variable_map st)) eqn:E;
    [|discriminate]. now rewrite (H _ _ E).
Qed.

Lemma is_some_find_extends_func (st st' : Namer) (k : string) :
  extends st st' ->
  is_some (StdMap.find k (function_map st)) = true ->
  is_some (StdMap.find k (function_map st')) = true.
Proof.
  intros [_ H]. destruct (StdMap.find k (function_map st)) eqn:E;
    [|discriminate]. now rewrite (H _ _ E).
Qed.

Lemma forallb_Forall_impl {A : Type} (f g : A -> bool) (l : list A) :
  Forall (fun x => f x = true -> g x = true) l ->
  forallb f l = true -> forallb g l = true.
Proof.
  induction 1 as [|x l Hx _ IH]; simpl; [auto|].
  intros H. apply andb_prop in H as [H1 H2]. now rewrite Hx, IH.
Qed.

Lemma registered_extends (st st' : Namer) (node : ASTNode) :
  extends st st' -> registered st node = true -> registered st' node = true.
Proof.
  intros He. induction node using ASTNode_nested_ind; simpl; auto;
    intros Hr; repeat (apply andb_prop in Hr as [Hr ?]);
    repeat (apply andb_true_intro; split);
    eauto using is_some_find_extends_var, is_some_find_extends_func,
      forallb_Forall_impl.
Qed.

Lemma registered_body_extends (st st' : Namer) (body : list ASTNode) :
  extends st st' ->
  forallb (registered st) body = true -> forallb (registered st') body = true.
Proof.
  intros He. apply forallb_Forall_impl. apply Forall_forall.
  intros node _. now apply registered_extends.
Qed.

(** ** The symbol collector *)

(** A run of [m] from any state returns, keeps the names already given,
    leaves a state in which [P] holds, and keeps the invariant of the
    namer. *)
Definition collects {A : Type} (P : Namer -> bool) (m : M Namer A) : Prop :=
  forall st, exists a st',
    m st = (Ok a, st') /\ extends st st' /\ P st' = true
    /\ (namer_inv st -> namer_inv st').

Definition monotone (P : Namer -> bool) : Prop :=
  forall st st', extends st st' -> P st = true -> P st' = true.

Lemma collects_bind {A B : Type} (P Q : Namer -> bool) (m : M Namer A)
  (k : A -> M Namer B) :
  collects P m -> (forall a, collects Q (k a)) -> monotone P ->
  collects (fun st => P st && Q st) (bind m k).
Proof.
  intros Hm Hk HP st.
  destruct (Hm st) as (a & st1 & E1 & X1 & P1 & I1).
  destruct (Hk a st1) as (b & st2 & E2 & X2 & Q2 & I2).
  exists b, st2. unfold bind. rewrite E1, E2.
  split; [reflexivity|]. split; [eapply extends_trans; eauto|].
  split; [|auto]. now rewrite (HP _ _ X2 P1), Q2.
Qed.

Lemma collects_ret {A : Type} (a : A) : collects (fun _ => true) (ret a).
Proof.
  intros st. exists a, st. auto using extends_refl.
Qed.

Lemma collects_get_cpp_var (name : string) :
  collects (fun st => is_some (StdMap.find name (variable_map st)))
    (get_cpp_var name).
Proof.
  intros st. destruct (get_cpp_var_run name st) as (v & st' & E & F & X & _).
  exists v, st'. rewrite F.
  split; [exact E|]. split; [exact X|]. split; [reflexivity|].
  intros I. pose proof (get_cpp_var_inv name st I) as I'.
  now rewrite E in I'.
Qed.

Lemma collects_get_cpp_func (name : string) :
  collects (fun st => is_some (StdMap.find name (function_map st)))
    (get_cpp_func name).
Proof.
  intros st. destruct (get_cpp_func_run name st) as (v & st' & E & F & X & _).
  exists v, st'. rewrite F.
  split; [exact E|]. split; [exact X|]. split; [reflexivity|].
  intros I. pose proof (get_cpp_func_inv name st I) as I'.
  now rewrite E in I'.
Qed.

Lemma collects_ext {A : Type} (P Q : Namer -> bool) (m : M Namer A) :
  collects P m -> (forall st, P st = true -> Q st = true) -> collects Q m.
Proof.
  intros Hm HPQ st. destruct (Hm st) as (a & st' & E & X & P' & I).
  exists a, st'. auto.
Qed.

Lemma monotone_registered (node : ASTNode) :
  monotone (fun st => registered st node).
Proof. intros st st' X. now apply registered_extends. Qed.

Lemma monotone_registered_body (body : list ASTNode) :
  monotone (fun st => forallb (registered st) body).
Proof. intros st st' X. now apply registered_body_extends. Qed.

Lemma monotone_var (name : string) :
  monotone (fun st => is_some (StdMap.find name (variable_map st))).
Proof. intros st st' X. now apply is_some_find_extends_var. Qed.

Lemma monotone_func (name : string) :
  monotone (fun st => is_some (StdMap.find name (function_map st))).
Proof. intros st st' X. now apply is_some_find_extends_func. Qed.

Lemma collects_body (body : list ASTNode) :
  Forall (fun node => collects (fun st => registered st node)
                        (collect_symbols node)) body ->
  collects (fun st => forallb (registered st) body)
    (collect_body collect_symbols body).
Proof.
  induction 1 as [|stmt body Hs _ IH]; cbn [collect_body forallb].
  - apply collects_ret.
  - apply collects_bind; auto using monotone_registered.
Qed.

Lemma collects_symbols (node : ASTNode) :
  collects (fun st => registered st node) (collect_symbols node).
Proof.
  induction node using ASTNode_nested_ind;
    cbn [collect_symbols registered];
    try apply collects_ret; auto.
  - eapply collects_ext;
      [apply collects_bind;
       [apply collects_get_cpp_var
       |intros; apply collects_ret|apply monotone_var]|].
    intros st Hs. now apply andb_prop in Hs as [Hs _].
  - apply collects_bind; auto using monotone_registered.
  - apply collects_bind;
      auto using collects_get_cpp_var, monotone_var.
  - apply collects_bind;
      auto using collects_body, monotone_registered.
  - apply collects_bind;
      auto using collects_body, monotone_registered.
  - apply collects_bind;
      auto using collects_get_cpp_func, collects_body, monotone_func.
  - eapply collects_ext;
      [apply collects_bind;
       [apply collects_get_cpp_func
       |intros; apply collects_ret|apply monotone_func]|].
    intros st Hs. now apply andb_prop in Hs as [Hs _].
Qed.

Lemma collects_ast (ast : list ASTNode) :
  collects (fun st => forallb (registered st) ast)
    (collect_body collect_symbols ast).
Proof.
  apply collects_body, Forall_forall. intros node _. apply collects_symbols.
Qed.

(** ** The code generator *)

(** [m] returns from every state. *)
Definition succeeds {A : Type} (m : M Namer A) : Prop :=
  forall st, exists a st', m st = (Ok a, st').

(** [m] returns from [st] and leaves it as it is. *)
Definition stable {A : Type} (st : Namer) (m : M Namer A) : Prop :=
  exists a, m st = (Ok a, st).

Lemma succeeds_bind {A B : Type} (m : M Namer A) (k : A -> M Namer B) :
  succeeds m -> (forall a, succeeds (k a)) -> succeeds (bind m k).
Proof.
  intros Hm Hk st. destruct (Hm st) as (a & st1 & E1).
  destruct (Hk a st1) as (b & st2 & E2).
  exists b, st2. unfold bind. now rewrite E1.
Qed.

Lemma succeeds_ret {A : Type} (a : A) : succeeds (@ret Namer A a).
Proof. intros st. now exists a, st. Qed.

Lemma succeeds_get_cpp_var (name : string) : succeeds (get_cpp_var name).
Proof.
  intros st. destruct (get_cpp_var_run name st) as (v & st' & E & _).
  now exists v, st'.
Qed.

Lemma succeeds_get_cpp_func (name : string) : succeeds (get_cpp_func name).
Proof.
  intros st. destruct (get_cpp_func_run name st) as (v & st' & E & _).
  now exists v, st'.
Qed.

Lemma stable_bind {A B : Type} (st : Namer) (m : M Namer A)
  (k : A -> M Namer B) :
  stable st m -> (forall a, stable st (k a)) -> stable st (bind m k).
Proof.
  intros [a E1] Hk. destruct (Hk a) as [b E2].
  exists b. unfold bind. now rewrite E1.
Qed.

Lemma stable_ret {A : Type} (st : Namer) (a : A) : stable st (ret a).
Proof. now exists a. Qed.

Lemma stable_get_cpp_var (st : Namer) (name : string) :
  is_some (StdMap.find name (variable_map st)) = true ->
  stable st (get_cpp_var name).
Proof.
  destruct (StdMap.find name (variable_map st)) as [v|] eqn:E;
    [|discriminate].
  intros _. exists v. now apply get_cpp_var_known.
Qed.

Lemma stable_get_cpp_func (st : Namer) (name : string) :
  is_some (StdMap.find name (function_map st)) = true ->
  stable st (get_cpp_func name).
Proof.
  destruct (StdMap.find name (function_map st)) as [v|] eqn:E;
    [|discriminate].
  intros _. exists v. now apply get_cpp_func_known.
Qed.

Lemma generate_body_succeeds (indent : string) (body : list ASTNode) :
  Forall (fun node => wf_node node -> succeeds (generate node)) body ->
  wf_nodes body -> succeeds (generate_body generate indent body).
Proof.
  unfold wf_nodes.
  induction 1 as [|stmt body Hs _ IH]; cbn [generate_body forallb].
  - intros _. apply succeeds_ret.
  - intros H. apply andb_prop in H as [H1 H2].
    apply succeeds_bind; [now apply Hs|]. intros s.
    apply succeeds_bind; [now apply IH|]. intros ss. apply succeeds_ret.
Qed.

(** Every [generate] method returns when no pointer of the tree is null. *)
Lemma generate_succeeds (node : ASTNode) :
  wf_node node -> succeeds (generate node).
Proof.
  unfold wf_node.
  induction node using ASTNode_nested_ind;
    cbn [generate well_formed]; intros Hw;
    try discriminate;
    repeat (apply andb_prop in Hw as [Hw ?]);
    repeat first
      [ apply succeeds_ret
      | apply succeeds_get_cpp_var
      | apply succeeds_get_cpp_func
      | apply generate_body_succeeds; [assumption | assumption]
      | apply succeeds_bind; [|intros ?]
      | auto ].
Qed.

Lemma generate_body_stable (st : Namer) (indent : string)
  (body : list ASTNode) :
  Forall (fun node => wf_node node -> registered st node = true ->
                      stable st (generate node)) body ->
  wf_nodes body -> forallb (registered st) body = true ->
  stable st (generate_body generate indent body).
Proof.
  unfold wf_nodes.
  induction 1 as [|stmt body Hs _ IH]; cbn [generate_body forallb].
  - intros _ _. apply stable_ret.
  - intros H R. apply andb_prop in H as [H1 H2].
    apply andb_prop in R as [R1 R2].
    apply stable_bind; [now apply Hs|]. intros s.
    apply stable_bind; [now apply IH|]. intros ss. apply stable_ret.
Qed.

(** After the collector has run, [generate] no longer writes to the
    namer. *)
Lemma generate_stable (st : Namer) (node : ASTNode) :
  wf_node node -> registered st node = true -> stable st (generate node).
Proof.
  unfold wf_node.
  induction node using ASTNode_nested_ind;
    cbn [generate well_formed registered]; intros Hw Hr;
    try discriminate;
    repeat (apply andb_prop in Hw as [Hw ?]);
    repeat (apply andb_prop in Hr as [Hr ?]);
    repeat first
      [ apply stable_ret
      | apply stable_get_cpp_var; assumption
      | apply stable_get_cpp_func; assumption
      | apply generate_body_stable; [assumption | assumption | assumption]
      | apply stable_bind; [|intros ?]
      | auto ].
Qed.

(** ** Compilations are independent of what ran before *)

(** C1.  [translate_to_cpp] starts from the reset state, whose two maps are
    empty and whose two counters are zero, whatever the namer held before.
    So the result of a compilation, the generated document or the exception,
    and the namer it leaves, are those of a compilation from the reset
    state: compiling a program again right after it was compiled, or after
    any other program was compiled, gives the same document. *)
Theorem translate_to_cpp_deterministic (code other : string) (st : Namer) :
  variable_map reset = StdMap.empty /\ var_counter reset = 0%Z
  /\ function_map reset = StdMap.empty /\ func_counter reset = 0%Z
  /\ translate_to_cpp code st = translate_to_cpp code reset
  /\ translate_to_cpp code (snd (translate_to_cpp code st))
     = translate_to_cpp code st
  /\ translate_to_cpp code (snd (translate_to_cpp other st))
     = translate_to_cpp code st.
Proof. repeat split. Qed.

(** A program of literals and print statements, compiled after another
    program has filled the namer and compiled from the reset state. *)
Example translate_print_literals :
  let code := "스크럼 5 스크럼 'mol' 스크럼 2 덧셈 3" in
  let used := snd (translate_to_cpp "밥 은 1 캠프1 [ 스크럼 밥 ]" reset) in
  var_counter used = 1%Z /\ func_counter used = 1%Z
  /\ translate_to_cpp code used = translate_to_cpp code reset
  /\ translate_to_cpp code reset
     = (Ok (preamble ++ nl ++ nl
            ++ "int main() {" ++ nl
            ++ "    mollang_print(MolObject(5));" ++ nl
            ++ "    mollang_print(MolObject(std::string(" ++ dq ++ "mol"
            ++ dq ++ ")));" ++ nl
            ++ "    mollang_print((MolObject(2) + MolObject(3)));" ++ nl
            ++ "    return 0;" ++ nl
            ++ "}" ++ nl), reset).
Proof. vm_compute. repeat split. Qed.

(** ** Words that [std::stoi] reads or rejects *)

(** C6.  A word that is a base-10 integer outside the range of [int] is no
    keyword and no variable name; [std::stoi] throws [std::out_of_range],
    which [tokenize] does not catch, so the tokenizer throws and no token
    sequence is produced.  A word that starts with digits and goes on with
    other bytes becomes a NUMBER token. *)
Theorem tokenize_number_defects :
  tokenize "99999999999" = Err (out_of_range "stoi")
  /\ fst (translate_to_cpp "스크럼 99999999999" reset)
     = Err (out_of_range "stoi")
  /\ tokenize "12abc"
     = Ok [mkToken NUMBER "12abc"; mkToken END_OF_FILE EmptyString]
  /\ tokenize "캠프1"
     = Ok [mkToken IDENTIFIER "캠프1"; mkToken END_OF_FILE EmptyString]
  /\ tokenize "2147483647"
     = Ok [mkToken NUMBER "2147483647"; mkToken END_OF_FILE EmptyString].
Proof. vm_compute. repeat split. Qed.

(** ** The token after the name of an assignment *)

(** C7.  [parse_statement] consumes the token that follows a variable name
    without looking at it: the statement [밥 3 5], where the name is followed
    by a number and not by the assignment keyword, is accepted as the
    assignment of 5 to the variable, and the compilation succeeds. *)
Theorem parse_assign_unchecked :
  tokenize "밥 3 5"
  = Ok [mkToken IDENTIFIER "밥"; mkToken NUMBER "3"; mkToken NUMBER "5";
        mkToken END_OF_FILE EmptyString]
  /\ parse [mkToken IDENTIFIER "밥"; mkToken NUMBER "3"; mkToken NUMBER "5";
            mkToken END_OF_FILE EmptyString]
     = Ok [AssignNode "밥" (NumberNode "5")]
  /\ parse [mkToken IDENTIFIER "밥"; mkToken KEYWORD "은"; mkToken NUMBER "5";
            mkToken END_OF_FILE EmptyString]
     = Ok [AssignNode "밥" (NumberNode "5")]
  /\ exists document st,
       translate_to_cpp "밥 3 5" reset = (Ok document, st).
Proof. repeat split; try (vm_compute; reflexivity). eexists _, _. vm_compute. reflexivity. Qed.

(** ** Expressions are folded to the left *)

(** [t] is a token that [parse_simple_expr] turns into the node [node]. *)
Definition is_term (t : Token) (node : ASTNode) : Prop :=
  parse_simple_expr [t] = (Ok node, []).

(** [t] is a keyword that [get_operator] maps to the operator [op]. *)
Definition is_operator (t : Token) (op : string) : Prop :=
  type t = KEYWORD /\ get_operator (value t) [] = (Ok op, []).

(** [t] makes the loop of [parse_expression] stop: it is no keyword, or it
    is one of the keywords that the loop breaks on. *)
Definition ends_expression (t : Token) : bool :=
  negb (TokenType_eqb (type t) KEYWORD)
  || (value t =? "은") || (value t =? "입") || (value t =? "몰")
  || (value t =? "스크럼") || (value t =? "캠프") || (value t =? "퇴근")
  || (value t =? "[") || (value t =? "]").

Lemma parse_simple_expr_term (t : Token) (node : ASTNode)
  (rest : list Token) :
  is_term t node -> parse_simple_expr (t :: rest) = (Ok node, rest).
Proof.
  unfold is_term, parse_simple_expr, bind, consume.
  repeat match goal with
         | |- context [if ?b then _ else _] => destruct b
         end; unfold ret, throw; congruence.
Qed.

Lemma get_operator_state (token op : string) (tokens : list Token) :
  get_operator token [] = (Ok op, []) ->
  get_operator token tokens = (Ok op, tokens).
Proof.
  unfold get_operator.
  repeat match goal with
         | |- context [if ?b then _ else _] => destruct b
         end; unfold ret, throw; congruence.
Qed.

Lemma is_operator_not_break (t : Token) (op : string) :
  is_operator t op ->
  ((value t =? "은") || (value t =? "입") || (value t =? "몰")
   || (value t =? "스크럼") || (value t =? "캠프") || (value t =? "퇴근"))
  = false
  /\ ((value t =? "[") || (value t =? "]")) = false.
Proof.
  intros [_ H].
  split;
    repeat match goal with
           | |- (_ || _) = false => apply orb_false_intro
           end;
    match goal with
    | |- (value t =? ?k) = false =>
        destruct (String.eqb_spec (value t) k) as [E|]; [|reflexivity];
        rewrite E in H; vm_compute in H; discriminate
    end.
Qed.

(** One turn of the loop: an operator and a term are read and folded with
    what was parsed so far on the left. *)
Lemma parse_expression_loop_step (fuel : nat) (left_ right_ : ASTNode)
  (o t : Token) (op : string) (rest : list Token) :
  is_operator o op -> is_term t right_ ->
  parse_expression_loop (S fuel) left_ (o :: t :: rest)
  = parse_expression_loop fuel (BinaryOpNode left_ op right_) rest.
Proof.
  intros Ho Ht.
  destruct (is_operator_not_break o op Ho) as [Hb1 Hb2].
  destruct Ho as [Hk Hop].
  cbn [parse_expression_loop]. unfold bind at 1. cbn [peek].
  rewrite Hk. cbn [TokenType_eqb].
  unfold bind at 1. cbn [peek]. rewrite Hb1.
  unfold bind at 1. cbn [peek]. rewrite Hb2.
  unfold bind at 1. cbn [consume].
  unfold bind at 1. rewrite (get_operator_state _ _ _ Hop).
  unfold bind at 1. now rewrite (parse_simple_expr_term _ _ _ Ht).
Qed.

Lemma parse_expression_loop_stop (fuel : nat) (left_ : ASTNode) (t : Token)
  (rest : list Token) :
  ends_expression t = true ->
  parse_expression_loop (S fuel) left_ (t :: rest) = (Ok left_, t :: rest).
Proof.
  unfold ends_expression. intros He.
  cbn [parse_expression_loop]. unfold bind at 1. cbn [peek].
  destruct (TokenType_eqb (type t) KEYWORD); [|reflexivity].
  unfold bind at 1. cbn [peek]. cbn [negb orb] in He.
  destruct ((value t =? "은") || (value t =? "입") || (value t =? "몰")
            || (value t =? "스크럼") || (value t =? "캠프")
            || (value t =? "퇴근")); [reflexivity|].
  unfold bind at 1. cbn [peek]. cbn [orb] in He. now rewrite He.
Qed.

(** A chain of operators and terms of any length is folded to the left. *)
Fixpoint chain_tokens (chain : list (Token * Token)) : list Token :=
  match chain with
  | [] => []
  | (o, t) :: chain' => o :: t :: chain_tokens chain'
  end.

Inductive folds : ASTNode -> list (Token * Token) -> ASTNode -> Prop :=
| folds_nil (left_ : ASTNode) : folds left_ [] left_
| folds_cons (left_ right_ node : ASTNode) (o t : Token) (op : string)
    (chain : list (Token * Token)) :
    is_operator o op -> is_term t right_ ->
    folds (BinaryOpNode left_ op right_) chain node ->
    folds left_ ((o, t) :: chain) node.

Lemma parse_expression_loop_chain (chain : list (Token * Token))
  (left_ node : ASTNode) (fuel : nat) (stop : Token) (rest : list Token) :
  folds left_ chain node -> ends_expression stop = true ->
  length chain < fuel ->
  parse_expression_loop fuel left_ (chain_tokens chain ++ stop :: rest)%list
  = (Ok node, stop :: rest).
Proof.
  intros Hf Hs. revert fuel.
  induction Hf as [left_|left_ right_ node o t op chain Ho Ht _ IH];
    intros fuel Hl; (destruct fuel as [|fuel]; [simpl in Hl; lia|]).
  - now apply parse_expression_loop_stop.
  - cbn [chain_tokens app]. rewrite (parse_expression_loop_step _ _ _ _ _ _ _ Ho Ht).
    apply IH. simpl in Hl. lia.
Qed.

(** C4.  For all terms [a], [b], [c] and all operator keywords, the token
    sequence [a + b * c], followed by a token that ends the expression,
    parses as [(a + b) * c] and is emitted with these parentheses; it does
    not parse as [a + (b * c)]. *)
Theorem parse_expression_flat_left (fuel : nat) (ta o1 tb o2 tc stop : Token)
  (rest : list Token) (a b c : ASTNode) (op1 op2 : string) :
  is_term ta a -> is_term tb b -> is_term tc c ->
  is_operator o1 op1 -> is_operator o2 op2 ->
  ends_expression stop = true -> 3 <= fuel ->
  parse_expression fuel (ta :: o1 :: tb :: o2 :: tc :: stop :: rest)
  = (Ok (BinaryOpNode (BinaryOpNode a op1 b) op2 c), stop :: rest)
  /\ fst (parse_expression fuel
            (ta :: o1 :: tb :: o2 :: tc :: stop :: rest))
     <> Ok (BinaryOpNode a op1 (BinaryOpNode b op2 c))
  /\ forall st sa st1 sb st2 sc st3,
       generate a st = (Ok sa, st1) -> generate b st1 = (Ok sb, st2) ->
       generate c st2 = (Ok sc, st3) ->
       generate (BinaryOpNode (BinaryOpNode a op1 b) op2 c) st
       = (Ok ("((" ++ sa ++ " " ++ op1 ++ " " ++ sb ++ ") " ++ op2 ++ " "
              ++ sc ++ ")"), st3).
Proof.
  intros Ha Hb Hc H1 H2 Hs Hf.
  assert (parse_expression fuel (ta :: o1 :: tb :: o2 :: tc :: stop :: rest)
          = (Ok (BinaryOpNode (BinaryOpNode a op1 b) op2 c), stop :: rest))
    as E.
  { unfold parse_expression, bind.
    rewrite (parse_simple_expr_term _ _ _ Ha).
    apply (parse_expression_loop_chain [(o1, tb); (o2, tc)] a _ fuel);
      [|exact Hs|simpl; lia].
    eapply folds_cons; [exact H1 | exact Hb |].
    eapply folds_cons; [exact H2 | exact Hc |]. apply folds_nil. }
  split; [exact E|]. split.
  - rewrite E. cbn [fst]. intros [= Ea _ _].
    assert (forall x y, x <> BinaryOpNode x op1 y) as Hne.
    { induction x; intros y; try discriminate.
      intros [= Hx Hop _]. subst op. now apply IHx1 in Hx. }
    symmetry in Ea. now apply Hne in Ea.
  - intros st sa st1 sb st2 sc st3 Ga Gb Gc.
    cbn [generate]. unfold bind, ret.
    rewrite Ga. cbv beta iota. rewrite Gb. cbv beta iota.
    rewrite Gc. cbv beta iota.
    now rewrite !append_assoc.
Qed.

Lemma parse_expression_flat_left_witness :
  let ta := mkToken NUMBER "1" in
  let o1 := mkToken KEYWORD "덧셈" in
  let tb := mkToken NUMBER "2" in
  let o2 := mkToken KEYWORD "곱셈" in
  let tc := mkToken NUMBER "3" in
  let stop := mkToken END_OF_FILE EmptyString in
  let a := NumberNode "1" in
  let b := NumberNode "2" in
  let c := NumberNode "3" in
  is_term ta a /\ is_term tb b /\ is_term tc c
  /\ is_operator o1 "+" /\ is_operator o2 "*"
  /\ ends_expression stop = true /\ 3 <= 3
  /\ parse_expression 3 [ta; o1; tb; o2; tc; stop]
     = (Ok (BinaryOpNode (BinaryOpNode a "+" b) "*" c), [stop])
  /\ generate (BinaryOpNode (BinaryOpNode a "+" b) "*" c) reset
     = (Ok "((MolObject(1) + MolObject(2)) * MolObject(3))", reset).
Proof.
  cbv zeta.
  do 3 (split; [reflexivity|]). do 2 (split; [split; reflexivity|]).
  split; [reflexivity|]. split; [lia|].
  destruct (parse_expression_flat_left 3
              (mkToken NUMBER "1") (mkToken KEYWORD "덧셈")
              (mkToken NUMBER "2") (mkToken KEYWORD "곱셈")
              (mkToken NUMBER "3") (mkToken END_OF_FILE EmptyString) []
              (NumberNode "1") (NumberNode "2") (NumberNode "3") "+" "*"
              eq_refl eq_refl eq_refl (conj eq_refl eq_refl)
              (conj eq_refl eq_refl) eq_refl (le_n 3))
    as (E & _ & G).
  split; [exact E|].
  apply (G reset "MolObject(1)" reset "MolObject(2)" reset "MolObject(3)"
           reset); reflexivity.
Defined.

(** ** String literals are copied as they are *)

Definition res_map {A B : Type} (f : A -> B) (r : Res A) : Res B :=
  match r with
  | Ok a => Ok (f a)
  | Err e => Err e
  end.

(** The tokens of a text are appended to the vector built so far. *)
Lemma tokenize_loop_app (fuel : nat) (code : string) (tokens : list Token) :
  tokenize_loop fuel code tokens
  = res_map (app tokens) (tokenize_loop fuel code []).
Proof.
  revert code tokens.
  induction fuel as [|fuel IH]; intros code tokens; [reflexivity|].
  assert (forall code' x,
             tokenize_loop fuel code' (push_back tokens x)
             = res_map (app tokens)
                 (tokenize_loop fuel code' (push_back [] x))) as Hpush.
  { intros code' x. rewrite (IH code' (push_back tokens x)).
    rewrite (IH code' (push_back [] x)).
    destruct (tokenize_loop fuel code' []) as [ts|e]; [|reflexivity].
    unfold push_back. simpl. now rewrite <- app_assoc. }
  destruct code as [|c rest]; cbn [tokenize_loop].
  - simpl. now rewrite app_nil_r.
  - destruct (isspace c); [apply IH|].
    destruct (Ascii.eqb c "[" || Ascii.eqb c "]"); [apply Hpush|].
    destruct (Ascii.eqb c dquote || Ascii.eqb c squote).
    + destruct (scan_quoted c rest) as [span [|c' after]]; apply Hpush.
    + destruct (scan_word (String c rest)) as [value rest'].
      destruct (value =? EmptyString); [apply IH|].
      destruct (is_keyword value); [apply Hpush|].
      destruct (is_variable value); [apply Hpush|].
      destruct (stoi value) as [z|[]]; try reflexivity; apply Hpush.
Qed.

Lemma scan_quoted_closed (quote : ascii) (span rest : string) :
  Str.contains quote span = false ->
  scan_quoted quote (span ++ String quote rest) = (span, String quote rest).
Proof.
  induction span as [|c span IH]; simpl.
  - intros _. now rewrite Ascii.eqb_refl.
  - intros H. apply orb_false_elim in H as [H1 H2].
    rewrite Ascii.eqb_sym, H1. simpl. now rewrite IH.
Qed.

Lemma scan_quoted_open (quote : ascii) (span : string) :
  Str.contains quote span = false ->
  scan_quoted quote span = (span, EmptyString).
Proof.
  induction span as [|c span IH]; simpl; [reflexivity|].
  intros H. apply orb_false_elim in H as [H1 H2].
  rewrite Ascii.eqb_sym, H1. simpl. now rewrite IH.
Qed.

Lemma is_quote (quote : ascii) :
  quote = dquote \/ quote = squote ->
  isspace quote = false
  /\ (Ascii.eqb quote "[" || Ascii.eqb quote "]") = false
  /\ (Ascii.eqb quote dquote || Ascii.eqb quote squote) = true.
Proof. intros [->| ->]; repeat split. Qed.

(** A quoted span at the head of the text becomes a STRING token that holds
    the bytes between the quotes. *)
Lemma tokenize_quoted (quote : ascii) (span rest : string) :
  quote = dquote \/ quote = squote ->
  Str.contains quote span = false ->
  tokenize (String quote (span ++ String quote rest))
  = res_map (cons (mkToken STRING span)) (tokenize rest).
Proof.
  intros Hq Hs. destruct (is_quote quote Hq) as (Q1 & Q2 & Q3).
  unfold tokenize.
  set (inner := tokenize_loop (S (String.length rest)) rest []).
  cbn [tokenize_loop]. rewrite Q1, Q2, Q3.
  rewrite (scan_quoted_closed _ _ _ Hs).
  rewrite (tokenize_loop_fuel _ (S (String.length rest)) rest).
  - rewrite tokenize_loop_app. fold inner.
    destruct inner; reflexivity.
  - simpl. rewrite length_append. simpl. lia.
  - lia.
Qed.

(** A quote that is not closed takes the rest of the text. *)
Lemma tokenize_unterminated (quote : ascii) (span : string) :
  quote = dquote \/ quote = squote ->
  Str.contains quote span = false ->
  tokenize (String quote span)
  = Ok [mkToken STRING span; mkToken END_OF_FILE EmptyString].
Proof.
  intros Hq Hs. destruct (is_quote quote Hq) as (Q1 & Q2 & Q3).
  unfold tokenize. cbn [tokenize_loop]. rewrite Q1, Q2, Q3.
  rewrite (scan_quoted_open _ _ Hs).
  destruct (String.length span); reflexivity.
Qed.

(** ** Blocks that are not closed *)



(** The loop over statements returns only in front of a token at which its
    condition fails. *)
Lemma parse_statements_stop (ps : Parser ASTNode) (more : Token -> bool)
  (fuel : nat) (statements result : list ASTNode) (tokens rest : list Token) :
  parse_statements ps more fuel statements tokens = (Ok result, rest) ->
  exists t rest', rest = t :: rest' /\ more t = false.
Proof.
  revert statements tokens.
  induction fuel as [|fuel IH]; intros statements tokens; [discriminate|].
  cbn [parse_statements]. unfold bind at 1.
  destruct tokens as [|t tokens']; cbn [peek]; [discriminate|].
  destruct (more t) eqn:Hm.
  - unfold bind at 1. destruct (ps (t :: tokens')) as [[stmt|e] toks];
      [apply IH | discriminate].
  - unfold ret. intros [= _ <-]. eauto.
Qed.









(** ** Generated names *)

(** C2.  In a state of the namer within one compilation, [get_cpp_var] gives
    a source name its generated name; a second lookup gives the same name
    and leaves the namer, counter included, as it is; a different source
    name gets a different generated name, and the first name keeps its own.
    The same holds for [get_cpp_func].  A source name that is looked up in
    both maps gets two different generated names, and the lookup in one map
    leaves the other map and its counter as they are. *)
Theorem namer_idempotent_injective (st : Namer) (a b : string) :
  namer_inv st -> a <> b ->
  exists va st1 vb st2 fa st3 fb st4,
    get_cpp_var a st = (Ok va, st1)
    /\ get_cpp_var a st1 = (Ok va, st1)
    /\ get_cpp_var b st1 = (Ok vb, st2)
    /\ va <> vb
    /\ get_cpp_var a st2 = (Ok va, st2)
    /\ get_cpp_func a st2 = (Ok fa, st3)
    /\ get_cpp_func a st3 = (Ok fa, st3)
    /\ get_cpp_func b st3 = (Ok fb, st4)
    /\ fa <> fb
    /\ get_cpp_func a st4 = (Ok fa, st4)
    /\ va <> fa /\ va <> fb /\ vb <> fa /\ vb <> fb
    /\ get_cpp_var a st4 = (Ok va, st4)
    /\ variable_map st4 = variable_map st2
    /\ var_counter st4 = var_counter st2
    /\ function_map st2 = function_map st
    /\ func_counter st2 = func_counter st.
Proof.
  intros I0 Hab.
  destruct (get_cpp_var_run a st) as (va & st1 & E1 & F1 & X1 & M1 & C1).
  destruct (get_cpp_var_run b st1) as (vb & st2 & E2 & F2 & X2 & M2 & C2).
  destruct (get_cpp_func_run a st2) as (fa & st3 & E3 & F3 & X3 & M3 & C3).
  destruct (get_cpp_func_run b st3) as (fb & st4 & E4 & F4 & X4 & M4 & C4).
  assert (namer_inv st1) as I1
    by (pose proof (get_cpp_var_inv a st I0) as H; now rewrite E1 in H).
  assert (namer_inv st2) as I2
    by (pose proof (get_cpp_var_inv b st1 I1) as H; now rewrite E2 in H).
  assert (namer_inv st3) as I3
    by (pose proof (get_cpp_func_inv a st2 I2) as H; now rewrite E3 in H).
  assert (namer_inv st4) as I4
    by (pose proof (get_cpp_func_inv b st3 I3) as H; now rewrite E4 in H).
  assert (StdMap.find a (variable_map st2) = Some va) as Fa2
    by (now apply X2).
  assert (StdMap.find a (variable_map st4) = Some va) as Fa4
    by (now apply X4, X3).
  assert (StdMap.find b (variable_map st4) = Some vb) as Fb4
    by (now apply X4, X3).
  assert (StdMap.find a (function_map st4) = Some fa) as Ga4
    by (now apply X4).
  exists va, st1, vb, st2, fa, st3, fb, st4.
  split; [exact E1|]. split; [now apply get_cpp_var_known|].
  split; [exact E2|].
  split.
  { intros <-. destruct I2 as [(_ & _ & Hinj) _].
    apply Hab. exact (Hinj _ _ _ Fa2 F2). }
  split; [now apply get_cpp_var_known|].
  split; [exact E3|]. split; [now apply get_cpp_func_known|].
  split; [exact E4|].
  split.
  { intros <-. destruct I4 as [_ (_ & _ & Hinj)].
    apply Hab. exact (Hinj _ _ _ Ga4 F4). }
  split; [now apply get_cpp_func_known|].
  split; [exact (var_name_not_func_name st4 a a va fa I4 Fa4 Ga4)|].
  split; [exact (var_name_not_func_name st4 a b va fb I4 Fa4 F4)|].
  split; [exact (var_name_not_func_name st4 b a vb fa I4 Fb4 Ga4)|].
  split; [exact (var_name_not_func_name st4 b b vb fb I4 Fb4 F4)|].
  split; [now apply get_cpp_var_known|].
  split; [congruence|]. split; [congruence|].
  split; congruence.
Qed.

Lemma namer_idempotent_injective_witness :
  namer_inv reset /\ "밥" <> "바압"
  /\ exists st1 st2 st3 st4,
       get_cpp_var "밥" reset = (Ok "var_0", st1)
       /\ get_cpp_var "밥" st1 = (Ok "var_0", st1)
       /\ get_cpp_var "바압" st1 = (Ok "var_1", st2)
       /\ get_cpp_func "밥" st2 = (Ok "func_0", st3)
       /\ get_cpp_func "바압" st3 = (Ok "func_1", st4)
       /\ get_cpp_var "밥" st4 = (Ok "var_0", st4).
Proof.
  split; [exact namer_inv_reset|]. split; [discriminate|].
  destruct (namer_idempotent_injective reset "밥" "바압" namer_inv_reset
              ltac:(discriminate))
    as (va & st1 & vb & st2 & fa & st3 & fb & st4 & E1 & E1' & E2 & _ & _
        & E3 & _ & E4 & _ & _ & _ & _ & _ & _ & E5 & _).
  vm_compute in E1. injection E1 as <- <-.
  vm_compute in E2. injection E2 as <- <-.
  vm_compute in E3. injection E3 as <- <-.
  vm_compute in E4. injection E4 as <- <-.
  eexists _, _, _, _. repeat split; vm_compute; reflexivity.
Defined.

(** ** Emission returns *)

Lemma succeeds_get : succeeds (@get Namer).
Proof. intros st. now exists st, st. Qed.

Lemma generate_functions_succeeds (ast : list ASTNode) :
  wf_nodes ast -> succeeds (generate_functions ast).
Proof.
  unfold wf_nodes. induction ast as [|node ast IH];
    cbn [generate_functions forallb]; intros Hw.
  - apply succeeds_ret.
  - apply andb_prop in Hw as [Hn Hw].
    apply succeeds_bind.
    + destruct (is_FuncDefNode node); [|apply succeeds_ret].
      apply succeeds_bind; [now apply generate_succeeds|].
      intros g. apply succeeds_ret.
    + intros s. apply succeeds_bind; [now apply IH|].
      intros ss. apply succeeds_ret.
Qed.

Lemma generate_main_succeeds (ast : list ASTNode) :
  wf_nodes ast -> succeeds (generate_main ast).
Proof.
  unfold wf_nodes. induction ast as [|node ast IH];
    cbn [generate_main forallb]; intros Hw.
  - apply succeeds_ret.
  - apply andb_prop in Hw as [Hn Hw].
    apply succeeds_bind.
    + destruct (negb (is_FuncDefNode node)); [|apply succeeds_ret].
      apply succeeds_bind; [now apply generate_succeeds|].
      intros g. apply succeeds_ret.
    + intros s. apply succeeds_bind; [now apply IH|].
      intros ss. apply succeeds_ret.
Qed.

Lemma generate_cpp_code_succeeds (ast : list ASTNode) :
  wf_nodes ast -> succeeds (generate_cpp_code ast).
Proof.
  intros Hw. unfold generate_cpp_code.
  apply succeeds_bind; [apply succeeds_get|]. intros st.
  apply succeeds_bind; [now apply generate_functions_succeeds|].
  intros functions.
  apply succeeds_bind; [now apply generate_main_succeeds|].
  intros main. apply succeeds_ret.
Qed.

Lemma parse_well_formed (tokens : list Token) (ast : list ASTNode) :
  parse tokens = Ok ast -> wf_nodes ast.
Proof.
  intros E. pose proof (parse_result tokens) as H. now rewrite E in H.
Qed.

(** C9.  The [generate] method of a node without a null pointer returns a
    text, and so does [generate_cpp_code] on a sequence of such nodes,
    whatever the namer holds.  The trees that [parse] returns are of this
    kind.  So when [translate_to_cpp] throws, the exception is the
    [std::out_of_range] of the tokenizer or a [std::runtime_error] of the
    parser. *)
Theorem emission_total (code : string) (ast : list ASTNode) (node : ASTNode)
  (st : Namer) :
  wf_nodes ast -> wf_node node ->
  (exists s st', generate node st = (Ok s, st'))
  /\ (exists document st', generate_cpp_code ast st = (Ok document, st'))
  /\ (forall tokens ast', parse tokens = Ok ast' -> wf_nodes ast')
  /\ (forall e st',
         translate_to_cpp code st = (Err e, st') ->
         (tokenize code = Err e /\ e = out_of_range "stoi")
         \/ (exists tokens what,
                tokenize code = Ok tokens /\ parse tokens = Err e
                /\ e = runtime_error what)).
Proof.
  intros Hast Hnode.
  split; [now apply generate_succeeds|].
  split; [now apply generate_cpp_code_succeeds|].
  split; [exact parse_well_formed|].
  intros e st'. unfold translate_to_cpp. unfold bind at 1. cbn [put].
  destruct (tokenize code) as [tokens|e0] eqn:Et.
  - pose proof (parse_result tokens) as Hp.
    destruct (parse tokens) as [ast'|e1] eqn:Ep.
    + unfold bind at 1.
      destruct (collects_ast ast' reset) as (u & st1 & -> & _).
      destruct (generate_cpp_code_succeeds ast' Hp st1) as (d & st2 & ->).
      discriminate.
    + unfold throw. intros [= <- <-]. right.
      destruct Hp as [what ->]. now exists tokens, what.
  - unfold throw. intros [= <- <-]. left.
    split; [reflexivity | exact (tokenize_exception code _ Et)].
Qed.

Lemma emission_total_witness :
  let ast := [FuncCallNode "캠프1";
              FuncDefNode "캠프1" [PrintNode (VariableNode "밥")]] in
  let node := IfNode (BinaryOpNode (NumberNode "3") "<" (NumberNode "5"))
                [ReturnNode InputNode] in
  wf_nodes ast /\ wf_node node
  /\ (exists s st', generate node reset = (Ok s, st'))
  /\ (exists document st', generate_cpp_code ast reset = (Ok document, st')).
Proof.
  cbv zeta. split; [reflexivity|]. split; [reflexivity|].
  pose proof (emission_total EmptyString
                [FuncCallNode "캠프1";
                 FuncDefNode "캠프1" [PrintNode (VariableNode "밥")]]
                (IfNode (BinaryOpNode (NumberNode "3") "<" (NumberNode "5"))
                   [ReturnNode InputNode])
                reset eq_refl eq_refl) as (G & D & _).
  split; [exact G | exact D].
Defined.

(** ** The layout of the generated document *)

(** The generated name of a source name that is registered in [st]. *)
Definition generated_var (st : Namer) (name : string) : string :=
  match StdMap.find name (variable_map st) with
  | Some v => v
  | None => EmptyString
  end.

Definition generated_func (st : Namer) (name : string) : string :=
  match StdMap.find name (function_map st) with
  | Some v => v
  | None => EmptyString
  end.

Section Lines.

Variable render : ASTNode -> string.

(** The lines of a body: every statement after [indent], each on a line. *)
Fixpoint render_body (indent : string) (body : list ASTNode) : string :=
  match body with
  | [] => EmptyString
  | stmt :: body' => indent ++ render stmt ++ nl ++ render_body indent body'
  end.

End Lines.

(** The text of a node, as a function of the two maps: what the [generate]
    methods of the source render, node by node, with every name replaced by
    the generated name that the map holds for it. *)
Fixpoint render (st : Namer) (node : ASTNode) : string :=
  match node with
  | NullNode => EmptyString
  | NumberNode value => "MolObject(" ++ value ++ ")"
  | StringNode value => "MolObject(std::string(" ++ dq ++ value ++ dq ++ "))"
  | VariableNode name => generated_var st name
  | InputNode => "mollang_input()"
  | BinaryOpNode left_ op right_ =>
      "(" ++ render st left_ ++ " " ++ op ++ " " ++ render st right_ ++ ")"
  | AssignNode var_name expr =>
      generated_var st var_name ++ " = " ++ render st expr ++ ";"
  | PrintNode expr => "mollang_print(" ++ render st expr ++ ");"
  | IfNode condition body =>
      "if (std::get<bool>(" ++ render st condition ++ ".value)) {" ++ nl
      ++ render_body (render st) "    " body ++ "}"
  | WhileNode condition body =>
      "while (std::get<bool>(" ++ render st condition ++ ".value)) {" ++ nl
      ++ render_body (render st) "    " body ++ "}"
  | FuncDefNode name body =>
      "MolObject " ++ generated_func st name ++ "() {" ++ nl
      ++ render_body (render st) EmptyString body
      ++ "return MolObject();" ++ nl ++ "}"
  | FuncCallNode name => generated_func st name ++ "();"
  | ReturnNode expr => "return " ++ render st expr ++ ";"
  end.

(** A function of this name is defined or called somewhere in the tree. *)
Fixpoint mentions_function (name : string) (node : ASTNode) : bool :=
  match node with
  | NullNode | NumberNode _ | StringNode _ | InputNode | VariableNode _ =>
      false
  | BinaryOpNode left_ _ right_ =>
      mentions_function name left_ || mentions_function name right_
  | AssignNode _ expr | PrintNode expr | ReturnNode expr =>
      mentions_function name expr
  | IfNode condition body | WhileNode condition body =>
      mentions_function name condition
      || existsb (mentions_function name) body
  | FuncDefNode name' body =>
      (name =? name') || existsb (mentions_function name) body
  | FuncCallNode name' => name =? name'
  end.

Lemma get_cpp_var_generated (st : Namer) (name : string) :
  is_some (StdMap.find name (variable_map st)) = true ->
  get_cpp_var name st = (Ok (generated_var st name), st).
Proof.
  unfold generated_var.
  destruct (StdMap.find name (variable_map st)) as [v|] eqn:E;
    [|discriminate].
  intros _. now apply get_cpp_var_known.
Qed.

Lemma get_cpp_func_generated (st : Namer) (name : string) :
  is_some (StdMap.find name (function_map st)) = true ->
  get_cpp_func name st = (Ok (generated_func st name), st).
Proof.
  unfold generated_func.
  destruct (StdMap.find name (function_map st)) as [v|] eqn:E;
    [|discriminate].
  intros _. now apply get_cpp_func_known.
Qed.

Lemma generate_body_render (st : Namer) (indent : string)
  (body : list ASTNode) :
  Forall (fun node => wf_node node -> registered st node = true ->
                      generate node st = (Ok (render st node), st)) body ->
  wf_nodes body -> forallb (registered st) body = true ->
  generate_body generate indent body st
  = (Ok (render_body (render st) indent body), st).
Proof.
  unfold wf_nodes.
  induction 1 as [|stmt body Hs _ IH]; cbn [generate_body render_body forallb].
  - reflexivity.
  - intros H R. apply andb_prop in H as [H1 H2].
    apply andb_prop in R as [R1 R2].
    unfold bind at 1. rewrite (Hs H1 R1).
    unfold bind at 1. rewrite (IH H2 R2). reflexivity.
Qed.

(** After the collector has run, every [generate] method returns the text
    of its node and leaves the namer as it is. *)
Lemma generate_text (st : Namer) (node : ASTNode) :
  wf_node node -> registered st node = true ->
  generate node st = (Ok (render st node), st).
Proof.
  unfold wf_node.
  induction node using ASTNode_nested_ind;
    cbn [generate render well_formed registered]; intros Hw Hr;
    try discriminate; try reflexivity;
    repeat (apply andb_prop in Hw as [Hw ?]);
    repeat (apply andb_prop in Hr as [Hr ?]).
  - now apply get_cpp_var_generated.
  - unfold bind at 1. rewrite IHnode1 by assumption.
    unfold bind at 1. rewrite IHnode2 by assumption. reflexivity.
  - unfold bind at 1. rewrite get_cpp_var_generated by assumption.
    unfold bind at 1. rewrite IHnode by assumption. reflexivity.
  - unfold bind at 1. rewrite IHnode by assumption. reflexivity.
  - unfold bind at 1. rewrite IHnode by assumption.
    unfold bind at 1.
    rewrite (generate_body_render st _ body) by assumption. reflexivity.
  - unfold bind at 1. rewrite IHnode by assumption.
    unfold bind at 1.
    rewrite (generate_body_render st _ body) by assumption. reflexivity.
  - unfold bind at 1. rewrite get_cpp_func_generated by assumption.
    unfold bind at 1.
    rewrite (generate_body_render st _ body) by assumption. reflexivity.
  - unfold bind at 1. rewrite get_cpp_func_generated by assumption.
    reflexivity.
  - unfold bind at 1. rewrite IHnode by assumption. reflexivity.
Qed.

Lemma generate_functions_text (st : Namer) (ast : list ASTNode) :
  wf_nodes ast -> forallb (registered st) ast = true ->
  generate_functions ast st
  = (Ok (Str.concat_map (fun node => render st node ++ nl ++ nl)
           (filter is_FuncDefNode ast)), st).
Proof.
  unfold wf_nodes. induction ast as [|node ast IH];
    cbn [generate_functions forallb filter]; intros Hw Hr; [reflexivity|].
  apply andb_prop in Hw as [Hn Hw]. apply andb_prop in Hr as [Rn Rr].
  unfold bind at 1. destruct (is_FuncDefNode node).
  - unfold bind at 1. rewrite (generate_text st node Hn Rn).
    unfold ret at 1. unfold bind at 1. rewrite (IH Hw Rr).
    unfold ret. cbn [Str.concat_map]. now rewrite !append_assoc.
  - unfold ret at 1. unfold bind at 1. rewrite (IH Hw Rr). reflexivity.
Qed.

Lemma generate_main_text (st : Namer) (ast : list ASTNode) :
  wf_nodes ast -> forallb (registered st) ast = true ->
  generate_main ast st
  = (Ok (Str.concat_map (fun node => "    " ++ render st node ++ nl)
           (filter (fun node => negb (is_FuncDefNode node)) ast)), st).
Proof.
  unfold wf_nodes. induction ast as [|node ast IH];
    cbn [generate_main forallb filter]; intros Hw Hr; [reflexivity|].
  apply andb_prop in Hw as [Hn Hw]. apply andb_prop in Hr as [Rn Rr].
  unfold bind at 1. destruct (negb (is_FuncDefNode node)).
  - unfold bind at 1. rewrite (generate_text st node Hn Rn).
    unfold ret at 1. unfold bind at 1. rewrite (IH Hw Rr).
    unfold ret. cbn [Str.concat_map]. now rewrite !append_assoc.
  - unfold ret at 1. unfold bind at 1. rewrite (IH Hw Rr). reflexivity.
Qed.

Lemma declarations_find (tail k v : string) (m : StdMap.t) :
  StdMap.find k m = Some v ->
  exists before after,
    declarations tail m = before ++ ("MolObject " ++ v ++ tail) ++ after.
Proof.
  unfold declarations.
  induction m as [|[k' v'] m IH]; cbn [StdMap.find Str.concat_map];
    [discriminate|].
  destruct (k =? k').
  - intros [= ->]. now exists EmptyString, (declarations tail m).
  - intros H. destruct (IH H) as (before & after & E).
    exists (("MolObject " ++ v' ++ tail) ++ before), after.
    cbn [snd]. rewrite E. now rewrite !append_assoc.
Qed.

Lemma existsb_Forall_impl {A : Type} (f : A -> bool) (P : A -> Prop)
  (l : list A) :
  Forall (fun x => f x = true -> P x) l ->
  existsb f l = true -> Exists P l.
Proof.
  induction 1 as [|x l Hx _ IH]; simpl; [discriminate|].
  intros H. apply orb_prop in H as [H|H]; [left; auto | right; auto].
Qed.

Lemma registered_mentions (st : Namer) (name : string) (node : ASTNode) :
  registered st node = true -> mentions_function name node = true ->
  is_some (StdMap.find name (function_map st)) = true.
Proof.
  induction node using ASTNode_nested_ind;
    cbn [registered mentions_function]; intros Hr Hm;
    try discriminate;
    repeat (apply andb_prop in Hr as [Hr ?]);
    repeat match goal with
      | H : (_ || _) = true |- _ => apply orb_prop in H as [H|H]
      | H : (name =? _) = true |- _ => apply String.eqb_eq in H; subst
      end; auto;
    match goal with
    | Hall : Forall _ ?body, Hreg : forallb _ ?body = true,
      Hex : existsb _ ?body = true |- _ =>
        rewrite forallb_forall in Hreg; rewrite Forall_forall in Hall;
        apply existsb_exists in Hex as (x & Hin & Hx);
        exact (Hall x Hin (Hreg x Hin) Hx)
    end.
Qed.

(** X20.  For every tree without a null pointer, after [collect_symbols]
    has run over the whole tree, the document that [generate_cpp_code]
    returns is, in this order: the preamble; one forward declaration for
    every entry of the function map, which holds every function that the
    tree defines or calls anywhere; the globals; the text of every function
    definition of the top level, in the order of the tree, each made of its
    header, the lines of its body and the return of the empty value; and
    [main] with the text of every other statement of the top level, in the
    order of the tree, and the return of 0.  The text of a node is the text
    of [render]: a statement inside a block, a function definition
    included, is part of the text of the statement that holds the block.
    The generation leaves the namer as the collector left it, so the name
    that a call is emitted with is the name that was declared, also when
    the definition comes after the call. *)
Theorem generate_cpp_code_layout (ast : list ASTNode) (st0 : Namer) :
  wf_nodes ast ->
  exists st,
    collect_body collect_symbols ast st0 = (Ok tt, st)
    /\ generate_cpp_code ast st
       = (Ok (preamble
              ++ declarations ("();" ++ nl) (function_map st) ++ nl
              ++ declarations (";" ++ nl) (variable_map st) ++ nl
              ++ Str.concat_map (fun node => render st node ++ nl ++ nl)
                   (filter is_FuncDefNode ast)
              ++ "int main() {" ++ nl
              ++ Str.concat_map (fun node => "    " ++ render st node ++ nl)
                   (filter (fun node => negb (is_FuncDefNode node)) ast)
              ++ "    return 0;" ++ nl
              ++ "}" ++ nl), st)
    /\ (forall node, In node ast ->
                     generate node st = (Ok (render st node), st))
    /\ (forall name body,
           In (FuncDefNode name body) ast ->
           exists f,
             StdMap.find name (function_map st) = Some f
             /\ render st (FuncDefNode name body)
                = "MolObject " ++ f ++ "() {" ++ nl
                  ++ render_body (render st) EmptyString body
                  ++ "return MolObject();" ++ nl ++ "}")
    /\ (forall name,
           existsb (mentions_function name) ast = true ->
           exists f before after,
             StdMap.find name (function_map st) = Some f
             /\ declarations ("();" ++ nl) (function_map st)
                = before ++ ("MolObject " ++ f ++ "();" ++ nl) ++ after
             /\ generate (FuncCallNode name) st = (Ok (f ++ "();"), st)).
Proof.
  intros Hw.
  destruct (collects_ast ast st0) as ([] & st & Ec & _ & Hr & _).
  exists st. split; [exact Ec|].
  pose proof Hw as Hw'. unfold wf_nodes in Hw'.
  rewrite forallb_forall in Hw'.
  pose proof Hr as Hr'. rewrite forallb_forall in Hr'.
  split; [|split; [|split]].
  - unfold generate_cpp_code. unfold bind at 1. cbn [get].
    unfold bind at 1. rewrite (generate_functions_text st ast Hw Hr).
    unfold bind at 1. rewrite (generate_main_text st ast Hw Hr).
    reflexivity.
  - intros node Hin. apply generate_text; [apply Hw' | apply Hr']; exact Hin.
  - intros name body Hin. pose proof (Hr' _ Hin) as Hreg.
    cbn [registered] in Hreg. apply andb_prop in Hreg as [Hf _].
    cbn [render]. unfold generated_func.
    destruct (StdMap.find name (function_map st)) as [f|] eqn:Ef;
      [|discriminate].
    now exists f.
  - intros name Hm. apply existsb_exists in Hm as (node & Hin & Hm).
    pose proof (registered_mentions st name node (Hr' _ Hin) Hm) as Hs.
    destruct (StdMap.find name (function_map st)) as [f|] eqn:Ef;
      [|discriminate].
    destruct (declarations_find ("();" ++ nl) name f _ Ef)
      as (before & after & Ed).
    exists f, before, after. split; [reflexivity|]. split; [exact Ed|].
    cbn [generate]. unfold bind. now rewrite (get_cpp_func_known _ _ _ Ef).
Qed.

(** A call that comes before the definition of its function. *)
Example translate_call_before_definition :
  translate_to_cpp "캠프1 캠프1 [ 스크럼 1 ] 스크럼 2" reset
  = (Ok (preamble
         ++ "MolObject func_0();" ++ nl ++ nl ++ nl
         ++ "MolObject func_0() {" ++ nl
         ++ "mollang_print(MolObject(1));" ++ nl
         ++ "return MolObject();" ++ nl
         ++ "}" ++ nl ++ nl
         ++ "int main() {" ++ nl
         ++ "    func_0();" ++ nl
         ++ "    mollang_print(MolObject(2));" ++ nl
         ++ "    return 0;" ++ nl
         ++ "}" ++ nl),
     mkNamer [] 0 [("캠프1", "func_0")] 1).
Proof. vm_compute. reflexivity. Qed.

Lemma generate_cpp_code_layout_witness :
  let ast := [FuncCallNode "캠프1";
              FuncDefNode "캠프1" [PrintNode (NumberNode "1")];
              PrintNode (NumberNode "2")] in
  let st := mkNamer [] 0 [("캠프1", "func_0")] 1 in
  wf_nodes ast
  /\ collect_body collect_symbols ast reset = (Ok tt, st)
  /\ generate_cpp_code ast st
     = (Ok (preamble
            ++ "MolObject func_0();" ++ nl ++ nl ++ nl
            ++ "MolObject func_0() {" ++ nl
            ++ "mollang_print(MolObject(1));" ++ nl
            ++ "return MolObject();" ++ nl
            ++ "}" ++ nl ++ nl
            ++ "int main() {" ++ nl
            ++ "    func_0();" ++ nl
            ++ "    mollang_print(MolObject(2));" ++ nl
            ++ "    return 0;" ++ nl
            ++ "}" ++ nl), st).
Proof.
  cbv zeta. split; [reflexivity|].
  destruct (generate_cpp_code_layout
              [FuncCallNode "캠프1";
               FuncDefNode "캠프1" [PrintNode (NumberNode "1")];
               PrintNode (NumberNode "2")] reset eq_refl)
    as (st & Ec & Eg & _).
  vm_compute in Ec. injection Ec as <-.
  split; [reflexivity|]. rewrite Eg. vm_compute. reflexivity.
Defined.

(** C3.  The function body of a definition that stands inside a block is
    not emitted before [main].  In the tree of
    [입 1 작 2 [ 캠프1 [ 스크럼 1 ] ] 캠프1] the definition of the function
    is a statement of the block of the [if].  [collect_symbols] walks into
    the block, so the function is declared; the loop over the function
    definitions looks at the statements of the top level only, so the
    document has no function body between the declarations and [main]; and
    the body is emitted inside [main], in the text of the [if]. *)
Theorem nested_function_body_in_main :
  let tokens := [mkToken KEYWORD "입"; mkToken NUMBER "1";
                 mkToken KEYWORD "작"; mkToken NUMBER "2";
                 mkToken SYMBOL "["; mkToken IDENTIFIER "캠프1";
                 mkToken SYMBOL "["; mkToken KEYWORD "스크럼";
                 mkToken NUMBER "1"; mkToken SYMBOL "]";
                 mkToken SYMBOL "]"; mkToken IDENTIFIER "캠프1";
                 mkToken END_OF_FILE EmptyString] in
  let ast := [IfNode (BinaryOpNode (NumberNode "1") "<" (NumberNode "2"))
                [FuncDefNode "캠프1" [PrintNode (NumberNode "1")]];
              FuncCallNode "캠프1"] in
  tokenize "입 1 작 2 [ 캠프1 [ 스크럼 1 ] ] 캠프1" = Ok tokens
  /\ parse tokens = Ok ast
  /\ wf_nodes ast
  /\ existsb (mentions_function "캠프1") ast = true
  /\ filter is_FuncDefNode ast = []
  /\ translate_to_cpp "입 1 작 2 [ 캠프1 [ 스크럼 1 ] ] 캠프1" reset
     = (Ok (preamble
            ++ "MolObject func_0();" ++ nl ++ nl ++ nl
            ++ "int main() {" ++ nl
            ++ "    if (std::get<bool>((MolObject(1) < MolObject(2)).value)) {"
            ++ nl
            ++ "    MolObject func_0() {" ++ nl
            ++ "mollang_print(MolObject(1));" ++ nl
            ++ "return MolObject();" ++ nl
            ++ "}" ++ nl
            ++ "}" ++ nl
            ++ "    func_0();" ++ nl
            ++ "    return 0;" ++ nl
            ++ "}" ++ nl),
        mkNamer [] 0 [("캠프1", "func_0")] 1).
Proof. cbv zeta. repeat split; vm_compute; reflexivity. Qed.

(** ** Variable names *)

Lemma length_repeat (s : string) (n : nat) :
  String.length (Str.repeat s n) = n * String.length s.
Proof.
  induction n as [|n IH]; simpl; [reflexivity|].
  rewrite length_append, IH. lia.
Qed.

Lemma substring_skip (pre u : string) (i m : nat) :
  substring (String.length pre + i) m (pre ++ u) = substring i m u.
Proof. induction pre as [|c pre IH]; simpl; [reflexivity | exact IH]. Qed.

Lemma substring_skip_0 (pre u : string) (m : nat) :
  substring (String.length pre) m (pre ++ u) = substring 0 m u.
Proof. rewrite <- (substring_skip pre u 0 m). f_equal. lia. Qed.

Lemma substring_all (u : string) : substring 0 (String.length u) u = u.
Proof. induction u as [|c u IH]; simpl; [reflexivity | now rewrite IH]. Qed.

Lemma substring_0_append (s x : string) :
  substring 0 (String.length s) (s ++ x) = s.
Proof.
  induction s as [|c s IH]; simpl; [now destruct x | now rewrite IH].
Qed.

Lemma substring_take (u : string) (m : nat) :
  m <= String.length u ->
  exists u', u = substring 0 m u ++ u' /\ String.length u = m + String.length u'.
Proof.
  revert u. induction m as [|m IH]; intros u Hl.
  - exists u. split; [now destruct u | reflexivity].
  - destruct u as [|c u]; simpl in Hl; [lia|].
    destruct (IH u) as (u' & E & L); [lia|].
    exists u'. simpl. split; [now rewrite <- E | lia].
Qed.

Lemma prefix_split (p s : string) :
  prefix p s = true -> exists t, s = p ++ t.
Proof.
  revert s. induction p as [|c p IH]; intros s.
  - intros _. now exists s.
  - destruct s as [|d s]; cbn [prefix append]; [discriminate|].
    destruct (ascii_dec c d) as [->|]; [|discriminate].
    intros H. destruct (IH s H) as [t ->]. now exists t.
Qed.

(** The text of a variable name of [n] fillers. *)
Definition variable_name (n : nat) : string :=
  "바" ++ Str.repeat "아" n ++ "압".

Lemma is_variable_loop_fillers (n k fuel : nat) (pre : string) :
  n < fuel ->
  is_variable_loop fuel (pre ++ Str.repeat "아" n ++ "압") (String.length pre)
  = Some true.
Proof.
  revert n pre. induction fuel as [|fuel IH]; intros n pre Hf; [lia|].
  cbn [is_variable_loop]. rewrite length_append, length_append, length_repeat.
  destruct n as [|n].
  - replace (String.length pre <? _)%nat with false; [reflexivity|].
    symmetry. apply Nat.ltb_ge. simpl. lia.
  - replace (String.length pre <? _)%nat with true
      by (symmetry; apply Nat.ltb_lt; simpl; lia).
    unfold Str.substr. rewrite substring_skip_0.
    cbn [Str.repeat]. rewrite append_assoc.
    rewrite (substring_0_append "아"). cbn [String.eqb Ascii.eqb Bool.eqb negb].
    specialize (IH n (pre ++ "아") ltac:(lia)).
    rewrite append_assoc, length_append in IH. exact IH.
Qed.

Lemma is_variable_loop_shape (fuel : nat) (pre u : string) :
  3 <= String.length u ->
  is_variable_loop fuel (pre ++ u) (String.length pre) = Some true ->
  Str.substr (pre ++ u) (String.length (pre ++ u) - 3) 3 = "압" ->
  exists n, u = Str.repeat "아" n ++ "압".
Proof.
  revert pre u. induction fuel as [|fuel IH]; intros pre u Hl; [discriminate|].
  cbn [is_variable_loop]. unfold Str.substr.
  rewrite length_append.
  destruct (String.length pre <? String.length pre + String.length u - 3)%nat
    eqn:Hc.
  - apply Nat.ltb_lt in Hc. rewrite substring_skip_0.
    destruct (substring 0 3 u =? "아") eqn:Hs; [|discriminate].
    apply String.eqb_eq in Hs. cbn [negb].
    destruct (substring_take u 3 Hl) as (u' & Eu & Lu). rewrite Hs in Eu.
    intros Hloop Hend.
    destruct (Nat.le_gt_cases 3 (String.length u')) as [H3|H3].
    + destruct (IH (pre ++ "아") u' H3) as [n ->].
      * rewrite length_append, append_assoc, <- Eu. exact Hloop.
      * rewrite append_assoc, <- Eu, length_append. exact Hend.
      * exists (S n). exact Eu.
    + exfalso. subst u.
      replace (String.length pre + String.length ("아" ++ u') - 3)
        with (String.length pre + String.length u') in Hend
        by (rewrite length_append; simpl; lia).
      rewrite substring_skip in Hend.
      destruct u' as [|a [|b [|c u']]]; simpl in H3, Hc; try lia;
        simpl in Hend; discriminate.
  - apply Nat.ltb_ge in Hc. intros _ Hend.
    assert (String.length u = 3) as L3 by lia.
    replace (String.length pre + String.length u - 3)
      with (String.length pre) in Hend by lia.
    rewrite substring_skip_0, <- L3, substring_all in Hend.
    exists 0. exact Hend.
Qed.

Lemma prefix_append (p t : string) : prefix p (p ++ t) = true.
Proof.
  induction p as [|c p IH]; cbn [prefix append]; [now destruct t|].
  destruct (ascii_dec c c) as [_|Hn]; [exact IH | now elim Hn].
Qed.

Lemma is_variable_name (n : nat) : is_variable (variable_name n) = true.
Proof.
  unfold is_variable, variable_name.
  set (token := "바" ++ Str.repeat "아" n ++ "압").
  assert ((token =? "밥") = false) as E1
    by (apply String.eqb_neq; destruct n; discriminate).
  assert (String.length token = 6 + 3 * n) as L
    by (unfold token; rewrite !length_append, length_repeat; simpl; lia).
  assert (Str.starts_with token "바" = true) as E2
    by apply (prefix_append "바").
  assert (Str.substr token (String.length token - 3) 3 = "압") as E3.
  { unfold Str.substr, token. rewrite <- append_assoc.
    replace (String.length (("바" ++ Str.repeat "아" n) ++ "압") - 3)
      with (String.length ("바" ++ Str.repeat "아" n))
      by (rewrite !length_append; simpl; lia).
    now rewrite substring_skip_0. }
  assert (is_variable_loop (String.length token) token 3 = Some true) as E4
    by (apply (is_variable_loop_fillers n 0 _ "바"); lia).
  rewrite E1, E2, E3, E4.
  replace (6 <=? String.length token)%nat with true
    by (symmetry; apply Nat.leb_le; lia).
  reflexivity.
Qed.

Lemma is_variable_inv (token : string) :
  is_variable token = true ->
  token = "밥" \/ exists n, token = variable_name n.
Proof.
  unfold is_variable.
  destruct (String.eqb_spec token "밥") as [->|Hn]; [now left|].
  destruct (6 <=? String.length token)%nat eqn:H6; [|discriminate].
  destruct (Str.starts_with token "바") eqn:Hp; [|discriminate].
  destruct (Str.substr token (String.length token - 3) 3 =? "압") eqn:Hs;
    [|discriminate].
  cbn [andb].
  destruct (is_variable_loop (String.length token) token 3) as [[|]|] eqn:Hl;
    try discriminate.
  intros _. right.
  apply Nat.leb_le in H6. apply String.eqb_eq in Hs.
  destruct (prefix_split _ _ Hp) as [u ->].
  rewrite length_append in H6. simpl in H6.
  destruct (is_variable_loop_shape _ "바" u ltac:(lia) Hl Hs) as [n ->].
  now exists n.
Qed.

(** *** The check on code points

    The variable-name pattern as the specification words it: on the code
    points of the word, decoded from UTF-8.  The decoder accepts the
    shortest encoding of a code point only. *)

Definition continuation (b : ascii) : bool :=
  ((0x80 <=? N_of_ascii b) && (N_of_ascii b <? 0xC0))%N.

Fixpoint utf8_decode (s : string) : option (list N) :=
  match s with
  | EmptyString => Some []
  | String b0 r0 =>
      let n0 := N_of_ascii b0 in
      if (n0 <? 0x80)%N then option_map (cons n0) (utf8_decode r0)
      else if (n0 <? 0xC0)%N then None
      else if (n0 <? 0xE0)%N then
        match r0 with
        | String b1 r1 =>
            let cp := ((n0 - 0xC0) * 64 + (N_of_ascii b1 - 0x80))%N in
            if continuation b1 && (0x80 <=? cp)%N
            then option_map (cons cp) (utf8_decode r1)
            else None
        | _ => None
        end
      else if (n0 <? 0xF0)%N then
        match r0 with
        | String b1 (String b2 r2) =>
            let cp := ((n0 - 0xE0) * 4096 + (N_of_ascii b1 - 0x80) * 64
                       + (N_of_ascii b2 - 0x80))%N in
            if continuation b1 && continuation b2 && (0x800 <=? cp)%N
               && negb ((0xD800 <=? cp) && (cp <=? 0xDFFF))%N
            then option_map (cons cp) (utf8_decode r2)
            else None
        | _ => None
        end
      else if (n0 <? 0xF8)%N then
        match r0 with
        | String b1 (String b2 (String b3 r3)) =>
            let cp := ((n0 - 0xF0) * 262144 + (N_of_ascii b1 - 0x80) * 4096
                       + (N_of_ascii b2 - 0x80) * 64
                       + (N_of_ascii b3 - 0x80))%N in
            if continuation b1 && continuation b2 && continuation b3
               && (0x10000 <=? cp)%N && (cp <=? 0x10FFFF)%N
            then option_map (cons cp) (utf8_decode r3)
            else None
        | _ => None
        end
      else None
  end.

(** The code points of the four glyphs. *)
Definition reserved_glyph : N := 0xBC25.
Definition prefix_glyph : N := 0xBC14.
Definition filler_glyph : N := 0xC544.
Definition suffix_glyph : N := 0xC555.

(** Zero or more fillers, then the suffix. *)
Fixpoint fillers_then_suffix (cps : list N) : bool :=
  match cps with
  | [] => false
  | c :: rest =>
      match rest with
      | [] => (c =? suffix_glyph)%N
      | _ :: _ => (c =? filler_glyph)%N && fillers_then_suffix rest
      end
  end.

Definition is_variable_codepoints (token : string) : bool :=
  match utf8_decode token with
  | Some [c] => (c =? reserved_glyph)%N
  | Some (c :: rest) => (c =? prefix_glyph)%N && fillers_then_suffix rest
  | _ => false
  end.

Lemma option_map_cons_inv (c c' : N) (r : option (list N)) (cps : list N) :
  option_map (cons c) r = Some (c' :: cps) -> c = c' /\ r = Some cps.
Proof. destruct r as [l|]; simpl; [|discriminate]. now intros [= -> ->]. Qed.

Lemma continuation_range (b : ascii) :
  continuation b = true -> (0x80 <= N_of_ascii b < 0xC0)%N.
Proof.
  unfold continuation. intros H. apply andb_prop in H as [H1 H2].
  apply N.leb_le in H1. apply N.ltb_lt in H2. lia.
Qed.

(** A code point of three bytes is decoded from these three bytes only. *)
Lemma utf8_decode_three (x0 x1 x2 : N) (s : string) (cps : list N) :
  (0xE0 <= x0 < 0xF0)%N -> (0x80 <= x1 < 0xC0)%N -> (0x80 <= x2 < 0xC0)%N ->
  (0x800 <= (x0 - 0xE0) * 4096 + (x1 - 0x80) * 64 + (x2 - 0x80))%N ->
  utf8_decode s
  = Some (((x0 - 0xE0) * 4096 + (x1 - 0x80) * 64 + (x2 - 0x80))%N :: cps) ->
  exists s',
    s = String (ascii_of_N x0) (String (ascii_of_N x1)
          (String (ascii_of_N x2) s'))
    /\ utf8_decode s' = Some cps.
Proof.
  intros H0 H1 H2 Hcp.
  destruct s as [|b0 r0]; cbn [utf8_decode]; [discriminate|].
  cbv zeta.
  destruct (N.ltb_spec (N_of_ascii b0) 0x80).
  { intros E. apply option_map_cons_inv in E as [E _]. lia. }
  destruct (N.ltb_spec (N_of_ascii b0) 0xC0); [discriminate|].
  destruct (N.ltb_spec (N_of_ascii b0) 0xE0).
  { destruct r0 as [|b1 r1]; [discriminate|].
    destruct (continuation b1) eqn:C1; [|discriminate].
    apply continuation_range in C1.
    destruct (0x80 <=? _)%N; [|discriminate]. cbn [andb].
    intros E. apply option_map_cons_inv in E as [E _]. lia. }
  destruct (N.ltb_spec (N_of_ascii b0) 0xF0).
  { destruct r0 as [|b1 [|b2 r2]]; try discriminate.
    destruct (continuation b1) eqn:C1; [|discriminate].
    destruct (continuation b2) eqn:C2; [|discriminate].
    apply continuation_range in C1. apply continuation_range in C2.
    match goal with
    | |- context [if ?b then _ else _] => destruct b; [|discriminate]
    end.
    intros E. apply option_map_cons_inv in E as [E Er].
    assert (N_of_ascii b0 = x0 /\ N_of_ascii b1 = x1 /\ N_of_ascii b2 = x2)
      as (E0 & E1 & E2) by lia.
    exists r2. split; [|exact Er].
    now rewrite <- E0, <- E1, <- E2, !ascii_N_embedding. }
  destruct (N.ltb_spec (N_of_ascii b0) 0xF8); [|discriminate].
  destruct r0 as [|b1 [|b2 [|b3 r3]]]; try discriminate.
  destruct (continuation b1) eqn:C1; [|discriminate].
  destruct (continuation b2) eqn:C2; [|discriminate].
  destruct (continuation b3) eqn:C3; [|discriminate].
  apply continuation_range in C1. apply continuation_range in C2.
  apply continuation_range in C3. cbn [andb].
  destruct (N.leb_spec 0x10000
              ((N_of_ascii b0 - 0xF0) * 262144 + (N_of_ascii b1 - 0x80) * 4096
               + (N_of_ascii b2 - 0x80) * 64 + (N_of_ascii b3 - 0x80)));
    [|discriminate].
  cbn [andb].
  match goal with
  | |- context [if ?b then _ else _] => destruct b; [|discriminate]
  end.
  intros E. apply option_map_cons_inv in E as [E _]. lia.
Qed.

Lemma option_map_cons_nil (c : N) (r : option (list N)) :
  option_map (cons c) r <> Some [].
Proof. destruct r; discriminate. Qed.

Lemma utf8_decode_nil (s : string) : utf8_decode s = Some [] -> s = EmptyString.
Proof.
  destruct s as [|b0 r0]; [reflexivity|]. cbn [utf8_decode]. cbv zeta.
  intros E. exfalso. revert E.
  destruct (N_of_ascii b0 <? 0x80)%N; [apply option_map_cons_nil|].
  destruct (N_of_ascii b0 <? 0xC0)%N; [discriminate|].
  destruct (N_of_ascii b0 <? 0xE0)%N.
  { destruct r0 as [|b1 r1]; [discriminate|].
    match goal with
    | |- (if ?b then _ else _) = _ -> False => destruct b; [|discriminate]
    end.
    apply option_map_cons_nil. }
  destruct (N_of_ascii b0 <? 0xF0)%N.
  { destruct r0 as [|b1 [|b2 r2]]; try discriminate.
    match goal with
    | |- (if ?b then _ else _) = _ -> False => destruct b; [|discriminate]
    end.
    apply option_map_cons_nil. }
  destruct (N_of_ascii b0 <? 0xF8)%N; [|discriminate].
  destruct r0 as [|b1 [|b2 [|b3 r3]]]; try discriminate.
  match goal with
  | |- (if ?b then _ else _) = _ -> False => destruct b; [|discriminate]
  end.
  apply option_map_cons_nil.
Qed.

Lemma utf8_decode_glyph (x0 x1 x2 : N) (s : string) (cp : N)
  (cps : list N) :
  (0xE0 <= x0 < 0xF0)%N -> (0x80 <= x1 < 0xC0)%N -> (0x80 <= x2 < 0xC0)%N ->
  cp = ((x0 - 0xE0) * 4096 + (x1 - 0x80) * 64 + (x2 - 0x80))%N ->
  (0x800 <= cp)%N ->
  utf8_decode s = Some (cp :: cps) ->
  exists s',
    s = String (ascii_of_N x0) (String (ascii_of_N x1)
          (String (ascii_of_N x2) s'))
    /\ utf8_decode s' = Some cps.
Proof. intros H0 H1 H2 -> Hcp. now apply utf8_decode_three. Qed.

Lemma utf8_decode_reserved (s : string) (cps : list N) :
  utf8_decode s = Some (reserved_glyph :: cps) ->
  exists s', s = "밥" ++ s' /\ utf8_decode s' = Some cps.
Proof.
  apply (utf8_decode_glyph 0xEB 0xB0 0xA5); unfold reserved_glyph; lia.
Qed.

Lemma utf8_decode_prefix (s : string) (cps : list N) :
  utf8_decode s = Some (prefix_glyph :: cps) ->
  exists s', s = "바" ++ s' /\ utf8_decode s' = Some cps.
Proof.
  apply (utf8_decode_glyph 0xEB 0xB0 0x94); unfold prefix_glyph; lia.
Qed.

Lemma utf8_decode_filler (s : string) (cps : list N) :
  utf8_decode s = Some (filler_glyph :: cps) ->
  exists s', s = "아" ++ s' /\ utf8_decode s' = Some cps.
Proof.
  apply (utf8_decode_glyph 0xEC 0x95 0x84); unfold filler_glyph; lia.
Qed.

Lemma utf8_decode_suffix (s : string) (cps : list N) :
  utf8_decode s = Some (suffix_glyph :: cps) ->
  exists s', s = "압" ++ s' /\ utf8_decode s' = Some cps.
Proof.
  apply (utf8_decode_glyph 0xEC 0x95 0x95); unfold suffix_glyph; lia.
Qed.

Lemma fillers_then_suffix_text (cps : list N) (s : string) :
  fillers_then_suffix cps = true -> utf8_decode s = Some cps ->
  exists n, s = Str.repeat "아" n ++ "압".
Proof.
  revert s. induction cps as [|c rest IH]; intros s; [discriminate|].
  cbn [fillers_then_suffix]. destruct rest as [|c' rest'].
  - intros Hc Hd. apply N.eqb_eq in Hc. subst c.
    apply utf8_decode_suffix in Hd as (s' & -> & Hd).
    apply utf8_decode_nil in Hd. subst s'. now exists 0.
  - intros Hc Hd. apply andb_prop in Hc as [Hc Hr].
    apply N.eqb_eq in Hc. subst c.
    apply utf8_decode_filler in Hd as (s' & -> & Hd).
    destruct (IH s' Hr Hd) as [n ->]. now exists (S n).
Qed.

Lemma utf8_decode_fillers (n : nat) :
  utf8_decode (Str.repeat "아" n ++ "압")
  = Some (List.repeat filler_glyph n ++ [suffix_glyph])%list.
Proof.
  induction n as [|n IH]; [reflexivity|].
  cbn [Str.repeat List.repeat]. rewrite append_assoc.
  change (utf8_decode ("아" ++ Str.repeat "아" n ++ "압"))
    with (option_map (cons filler_glyph)
            (utf8_decode (Str.repeat "아" n ++ "압"))).
  now rewrite IH.
Qed.

Lemma fillers_then_suffix_repeat (n : nat) :
  fillers_then_suffix (List.repeat filler_glyph n ++ [suffix_glyph])%list
  = true.
Proof.
  induction n as [|n IH]; [reflexivity|].
  cbn [List.repeat app fillers_then_suffix].
  destruct (List.repeat filler_glyph n ++ [suffix_glyph])%list eqn:E.
  - destruct n; discriminate.
  - now rewrite IH.
Qed.

Lemma is_variable_codepoints_name (n : nat) :
  is_variable_codepoints (variable_name n) = true.
Proof.
  unfold is_variable_codepoints, variable_name.
  change (utf8_decode ("바" ++ Str.repeat "아" n ++ "압"))
    with (option_map (cons prefix_glyph)
            (utf8_decode (Str.repeat "아" n ++ "압"))).
  rewrite utf8_decode_fillers. cbn [option_map].
  pose proof (fillers_then_suffix_repeat n) as H.
  destruct (List.repeat filler_glyph n ++ [suffix_glyph])%list eqn:E.
  - destruct n; discriminate.
  - now rewrite H.
Qed.

Lemma is_variable_codepoints_inv (token : string) :
  is_variable_codepoints token = true ->
  token = "밥" \/ exists n, token = variable_name n.
Proof.
  unfold is_variable_codepoints.
  destruct (utf8_decode token) as [[|c [|c' rest]]|] eqn:Hd;
    try discriminate.
  - intros Hc. apply N.eqb_eq in Hc. subst c. left.
    apply utf8_decode_reserved in Hd as (s' & -> & Hd).
    apply utf8_decode_nil in Hd. now subst s'.
  - intros Hc. apply andb_prop in Hc as [Hc Hr].
    apply N.eqb_eq in Hc. subst c. right.
    apply utf8_decode_prefix in Hd as (s' & -> & Hd).
    destruct (fillers_then_suffix_text _ _ Hr Hd) as [n ->].
    now exists n.
Qed.

(** C5.  [is_variable] returns true exactly on the reserved glyph and on
    the words made of the prefix glyph, any number of filler glyphs and the
    suffix glyph.  Such a word has at least two code points and its length
    is the number of its code points times three, the width of a code
    point.  The check on bytes agrees on every byte string with the check on
    the code points that the string decodes to. *)
Theorem is_variable_pattern (token : string) :
  (is_variable token = true <->
   token = "밥" \/ exists n, token = "바" ++ Str.repeat "아" n ++ "압")
  /\ (forall n, token = "바" ++ Str.repeat "아" n ++ "압" ->
                String.length token = 3 * (n + 2)
                /\ utf8_decode token
                   = Some (prefix_glyph
                           :: List.repeat filler_glyph n ++ [suffix_glyph])%list)
  /\ is_variable token = is_variable_codepoints token.
Proof.
  split; [|split].
  - split; [apply is_variable_inv|].
    intros [->|[n ->]]; [reflexivity | apply is_variable_name].
  - intros n ->. split.
    + rewrite !length_append, length_repeat. simpl. lia.
    + change (utf8_decode ("바" ++ Str.repeat "아" n ++ "압"))
        with (option_map (cons prefix_glyph)
                (utf8_decode (Str.repeat "아" n ++ "압"))).
      now rewrite utf8_decode_fillers.
  - destruct (is_variable token) eqn:Hv;
      destruct (is_variable_codepoints token) eqn:Hc; try reflexivity.
    + apply is_variable_inv in Hv as [->|[n ->]];
        [discriminate | now rewrite is_variable_codepoints_name in Hc].
    + apply is_variable_codepoints_inv in Hc as [->|[n ->]];
        [discriminate | now rewrite is_variable_name in Hv].
Qed.

Lemma is_variable_pattern_witness :
  "바아아압" = "바" ++ Str.repeat "아" 2 ++ "압"
  /\ is_variable "바아아압" = true
  /\ String.length "바아아압" = 3 * (2 + 2)
  /\ is_variable_codepoints "바아아압" = true.
Proof.
  split; [reflexivity|].
  destruct (is_variable_pattern "바아아압") as (Hiff & Hlen & Heq).
  assert (is_variable "바아아압" = true) as Hv
    by (apply (proj2 Hiff); right; now exists 2).
  split; [exact Hv|]. split; [exact (proj1 (Hlen 2 eq_refl))|].
  now rewrite <- Heq.
Defined.

(** * Further properties of the code *)

(** ** The spans that the tokenizer scans *)

(** A byte that goes on a word: no white space and no bracket. *)
Definition is_word_byte (c : ascii) : bool :=
  negb (isspace c) && negb (Ascii.eqb c "[") && negb (Ascii.eqb c "]").

Fixpoint all_bytes (f : ascii -> bool) (s : string) : bool :=
  match s with
  | EmptyString => true
  | String c r => f c && all_bytes f r
  end.

(** What is left after a scan is empty or starts with a byte that [f]
    rejects. *)
Definition stops_at (f : ascii -> bool) (rest : string) : Prop :=
  match rest with
  | EmptyString => True
  | String c _ => f c = false
  end.

(** X18.  The word scan takes the longest run of word bytes: the text is the word
    followed by the rest, every byte of the word is a word byte, and the rest
    is empty or starts with white space or a bracket. *)
Theorem scan_word_longest (code : string) :
  code = fst (scan_word code) ++ snd (scan_word code)
  /\ all_bytes is_word_byte (fst (scan_word code)) = true
  /\ stops_at is_word_byte (snd (scan_word code)).
Proof.
  induction code as [|c r (IH1 & IH2 & IH3)]; cbn [scan_word].
  - repeat split.
  - fold (is_word_byte c). destruct (is_word_byte c) eqn:Hc.
    + destruct (scan_word r) as [span rest]. cbn [fst snd] in *.
      cbn [append all_bytes]. rewrite Hc, IH2, <- IH1. repeat split.
      exact IH3.
    + cbn [fst snd append all_bytes stops_at]. repeat split. exact Hc.
Qed.

(** X19.  The scan of a quoted span stops at the first closing quote: the text is
    the span followed by the rest, the span holds no such quote, and the
    rest is empty, when the quote is never closed, or starts with the
    quote. *)
Theorem scan_quoted_first_quote (quote : ascii) (code : string) :
  code = fst (scan_quoted quote code) ++ snd (scan_quoted quote code)
  /\ Str.contains quote (fst (scan_quoted quote code)) = false
  /\ (snd (scan_quoted quote code) = EmptyString
      \/ exists after, snd (scan_quoted quote code) = String quote after).
Proof.
  induction code as [|c r (IH1 & IH2 & IH3)]; cbn [scan_quoted].
  - repeat split. now left.
  - destruct (Ascii.eqb_spec c quote) as [->|Hn]; cbn [negb].
    + cbn [fst snd append Str.contains]. repeat split. right. now exists r.
    + destruct (scan_quoted quote r) as [span rest]. cbn [fst snd] in *.
      cbn [append Str.contains]. rewrite <- IH1, IH2.
      assert (Ascii.eqb quote c = false) as ->
          by (apply Ascii.eqb_neq; congruence).
      repeat split. exact IH3.
Qed.

(** ** The tokens that the tokenizer produces *)

(** What holds of a token in front of the END token, by its kind. *)
Definition token_classified (t : Token) : Prop :=
  match type t with
  | KEYWORD =>
      is_keyword (value t) = true
      /\ value t <> EmptyString /\ all_bytes is_word_byte (value t) = true
  | IDENTIFIER =>
      is_keyword (value t) = false
      /\ (is_variable (value t) = true
          \/ stoi (value t) = Err (invalid_argument "stoi"))
      /\ value t <> EmptyString /\ all_bytes is_word_byte (value t) = true
  | NUMBER =>
      is_keyword (value t) = false /\ is_variable (value t) = false
      /\ (exists n, stoi (value t) = Ok n)
      /\ value t <> EmptyString /\ all_bytes is_word_byte (value t) = true
  | STRING => True
  | SYMBOL => value t = "[" \/ value t = "]"
  | END_OF_FILE => False
  end.

Lemma scan_word_bytes (code : string) :
  all_bytes is_word_byte (fst (scan_word code)) = true.
Proof.
  induction code as [|c r IH]; cbn [scan_word]; [reflexivity|].
  fold (is_word_byte c). destruct (is_word_byte c) eqn:Hc; [|reflexivity].
  destruct (scan_word r) as [span rest]. cbn [fst all_bytes] in *.
  now rewrite Hc, IH.
Qed.

Lemma tokenize_loop_classified (fuel : nat) (code : string)
  (tokens result : list Token) :
  Forall token_classified tokens ->
  tokenize_loop fuel code tokens = Ok result ->
  Forall token_classified result.
Proof.
  revert code tokens.
  induction fuel as [|fuel IH]; intros code tokens Hacc; [discriminate|].
  assert (forall code' t, token_classified t ->
            tokenize_loop fuel code' (push_back tokens t) = Ok result ->
            Forall token_classified result) as Hpush.
  { intros code' t Ht. apply IH. unfold push_back.
    apply Forall_app. split; [exact Hacc | now constructor]. }
  destruct code as [|c rest]; cbn [tokenize_loop].
  - now intros [= <-].
  - destruct (isspace c) eqn:Hs; [now apply IH|].
    destruct (Ascii.eqb c "[" || Ascii.eqb c "]") eqn:Hb.
    { apply Hpush. unfold token_classified. cbn [type value].
      apply orb_prop in Hb as [Hb|Hb]; apply Ascii.eqb_eq in Hb; subst c;
        auto. }
    destruct (Ascii.eqb c dquote || Ascii.eqb c squote).
    { destruct (scan_quoted c rest) as [span [|c' after]];
        apply Hpush; exact I. }
    pose proof (scan_word_bytes (String c rest)) as Hall.
    destruct (scan_word_progress c rest Hs Hb) as (span & rest' & Hw & _).
    rewrite Hw in *. cbn [fst] in Hall. cbn [String.eqb].
    destruct (is_keyword (String c span)) eqn:Hk.
    { apply Hpush. unfold token_classified. cbn [type value].
      repeat split; [exact Hk | discriminate | exact Hall]. }
    destruct (is_variable (String c span)) eqn:Hv.
    { apply Hpush. unfold token_classified. cbn [type value].
      repeat split; [exact Hk | now left | discriminate | exact Hall]. }
    destruct (stoi_cases (String c span)) as [[n Hn]|[Hn|Hn]]; rewrite Hn.
    + apply Hpush. unfold token_classified. cbn [type value].
      repeat split; [exact Hk | exact Hv | now exists n | discriminate
                    | exact Hall].
    + apply Hpush. unfold token_classified. cbn [type value].
      repeat split; [exact Hk | now right | discriminate | exact Hall].
    + discriminate.
Qed.

(** X1.  The vector that [tokenize] returns is a sequence of classified
    tokens followed by one END token with the empty text: a KEYWORD holds a
    word of the keyword set; a SYMBOL holds one bracket; a NUMBER holds a
    word that is no keyword and no variable name and that [std::stoi] reads;
    an IDENTIFIER holds a word that is no keyword and is a variable name or
    a word in which [std::stoi] finds no digit; the words are not empty and
    hold no white space and no bracket; and no token before the last is an
    END token. *)
Theorem tokenize_classified (code : string) (tokens : list Token) :
  tokenize code = Ok tokens ->
  exists body,
    tokens = (body ++ [mkToken END_OF_FILE EmptyString])%list
    /\ Forall token_classified body
    /\ Forall (fun t => type t <> END_OF_FILE) body.
Proof.
  unfold tokenize.
  destruct (tokenize_loop (S (String.length code)) code []) as [body|e]
    eqn:E; [|discriminate].
  intros [= <-]. exists body. split; [reflexivity|].
  assert (Forall token_classified body) as H
    by (eapply tokenize_loop_classified; [constructor | exact E]).
  split; [exact H|].
  eapply Forall_impl; [|exact H].
  intros t Ht Hty. unfold token_classified in Ht. now rewrite Hty in Ht.
Qed.

Lemma tokenize_classified_witness :
  let code := "밥 은 12 [캠프1] 'a b'" in
  let tokens :=
    [mkToken IDENTIFIER "밥"; mkToken KEYWORD "은"; mkToken NUMBER "12";
     mkToken SYMBOL "["; mkToken IDENTIFIER "캠프1"; mkToken SYMBOL "]";
     mkToken STRING "a b"; mkToken END_OF_FILE EmptyString] in
  tokenize code = Ok tokens
  /\ exists body,
       tokens = (body ++ [mkToken END_OF_FILE EmptyString])%list
       /\ Forall token_classified body
       /\ Forall (fun t => type t <> END_OF_FILE) body.
Proof.
  cbv zeta. split; [reflexivity|].
  exact (tokenize_classified "밥 은 12 [캠프1] 'a b'" _ eq_refl).
Defined.

(** X2.  [tokenize] throws nothing but the [std::out_of_range] of
    [std::stoi]; then [translate_to_cpp] throws the same exception and
    leaves the namer in the reset state, with no document. *)
Theorem tokenize_failure (code : string) (e : exn) (st : Namer) :
  tokenize code = Err e ->
  e = out_of_range "stoi"
  /\ translate_to_cpp code st = (Err (out_of_range "stoi"), reset).
Proof.
  intros E. pose proof (tokenize_exception code e E) as ->.
  split; [reflexivity|].
  unfold translate_to_cpp, bind, put. now rewrite E.
Qed.

Lemma tokenize_failure_witness :
  tokenize "밥 은 4294967296" = Err (out_of_range "stoi")
  /\ translate_to_cpp "밥 은 4294967296" reset
     = (Err (out_of_range "stoi"), reset).
Proof.
  split; [reflexivity|].
  exact (proj2 (tokenize_failure "밥 은 4294967296" _ reset eq_refl)).
Defined.

(** ** How the tokens of a text compose *)

Lemma tokenize_from (fuel : nat) (rest : string) (t : Token) :
  String.length rest < fuel ->
  match tokenize_loop fuel rest (push_back [] t) with
  | Ok tokens => Ok (push_back tokens (mkToken END_OF_FILE EmptyString))
  | Err e => Err e
  end
  = res_map (cons t) (tokenize rest).
Proof.
  intros Hf. unfold tokenize.
  rewrite (tokenize_loop_fuel fuel (S (String.length rest)) rest) by lia.
  rewrite tokenize_loop_app.
  destruct (tokenize_loop (S (String.length rest)) rest []); reflexivity.
Qed.

(** X3.  White space in front of a text carries no token, and a bracket in
    front of a text is one SYMBOL token of one character, whatever follows
    it. *)
Theorem tokenize_leading (c : ascii) (rest : string) :
  (isspace c = true -> tokenize (String c rest) = tokenize rest)
  /\ (c = "["%char \/ c = "]"%char ->
      tokenize (String c rest)
      = res_map (cons (mkToken SYMBOL (String c EmptyString)))
          (tokenize rest)).
Proof.
  split.
  - intros Hs. unfold tokenize. cbn [String.length].
    remember (S (String.length rest)) as fuel eqn:Ef.
    cbn [tokenize_loop]. now rewrite Hs.
  - intros Hb.
    assert (isspace c = false /\ (Ascii.eqb c "[" || Ascii.eqb c "]") = true)
      as [Hs Hb'] by (destruct Hb as [->| ->]; split; reflexivity).
    unfold tokenize at 1. cbn [String.length].
    remember (S (String.length rest)) as fuel eqn:Ef.
    cbn [tokenize_loop]. rewrite Hs, Hb'. apply tokenize_from. lia.
Qed.

Lemma tokenize_leading_witness :
  isspace " " = true
  /\ tokenize " [밥" = tokenize "[밥"
  /\ tokenize "[밥"
     = res_map (cons (mkToken SYMBOL "[")) (tokenize "밥").
Proof.
  split; [reflexivity|].
  split; [exact (proj1 (tokenize_leading " " "[밥") eq_refl)|].
  exact (proj2 (tokenize_leading "[" "밥") (or_introl eq_refl)).
Defined.

(** X4.  A text of white space only, the empty text included, gives the END
    token alone, and compiles to the document whose [main] is empty, with
    no declaration. *)
Theorem tokenize_blank (code : string) (st : Namer) :
  all_bytes isspace code = true ->
  tokenize code = Ok [mkToken END_OF_FILE EmptyString]
  /\ translate_to_cpp code st
     = (Ok (preamble ++ nl ++ nl ++ "int main() {" ++ nl
            ++ "    return 0;" ++ nl ++ "}" ++ nl), reset).
Proof.
  intros Hb.
  assert (tokenize code = Ok [mkToken END_OF_FILE EmptyString]) as E.
  { induction code as [|c r IH]; [reflexivity|].
    cbn [all_bytes] in Hb. apply andb_prop in Hb as [Hc Hr].
    rewrite <- (IH Hr). unfold tokenize. cbn [String.length].
    remember (S (String.length r)) as fuel eqn:Ef.
    cbn [tokenize_loop]. now rewrite Hc. }
  split; [exact E|].
  unfold translate_to_cpp. unfold bind at 1. cbn [put]. rewrite E.
  reflexivity.
Qed.

Lemma tokenize_blank_witness :
  let code := String " " nl in
  all_bytes isspace code = true
  /\ tokenize code = Ok [mkToken END_OF_FILE EmptyString].
Proof.
  cbv zeta. split; [reflexivity|].
  exact (proj1 (tokenize_blank (String " " nl) reset eq_refl)).
Defined.

(** The token of a word, by the order of the tests in [tokenize]. *)
Definition word_token (value : string) : Res Token :=
  if is_keyword value then Ok (mkToken KEYWORD value)
  else if is_variable value then Ok (mkToken IDENTIFIER value)
  else
    match stoi value with
    | Ok _ => Ok (mkToken NUMBER value)
    | Err (invalid_argument _) => Ok (mkToken IDENTIFIER value)
    | Err e => Err e
    end.

Lemma scan_word_word (word rest : string) :
  all_bytes is_word_byte word = true -> stops_at is_word_byte rest ->
  scan_word (word ++ rest) = (word, rest).
Proof.
  intros Hw Hr. induction word as [|c w IH]; cbn [append].
  - destruct rest as [|c r]; [reflexivity|].
    cbn [scan_word]. fold (is_word_byte c). cbn [stops_at] in Hr.
    now rewrite Hr.
  - cbn [all_bytes] in Hw. apply andb_prop in Hw as [Hc Hw].
    cbn [scan_word]. fold (is_word_byte c). rewrite Hc. now rewrite IH.
Qed.

(** One turn of the loop of [tokenize] on a word. *)
Lemma tokenize_loop_word (fuel : nat) (c : ascii) (word rest : string)
  (tokens : list Token) :
  all_bytes is_word_byte (String c word) = true ->
  c <> dquote -> c <> squote ->
  stops_at is_word_byte rest ->
  tokenize_loop (S fuel) (String c word ++ rest) tokens
  = match word_token (String c word) with
    | Ok t => tokenize_loop fuel rest (push_back tokens t)
    | Err e => Err e
    end.
Proof.
  intros Hw Hd Hq Hr.
  pose proof (scan_word_word _ _ Hw Hr) as Hscan.
  cbn [all_bytes] in Hw. apply andb_prop in Hw as [Hc Hw'].
  unfold is_word_byte in Hc. apply andb_prop in Hc as [Hc Hc3].
  apply andb_prop in Hc as [Hc1 Hc2].
  apply negb_true_iff in Hc1, Hc2, Hc3.
  apply Ascii.eqb_neq in Hd, Hq.
  cbn [append tokenize_loop].
  rewrite Hc1, Hc2, Hc3, Hd, Hq. cbn [orb].
  change (String c (word ++ rest)) with (String c word ++ rest).
  rewrite Hscan. cbn [String.eqb]. unfold word_token.
  destruct (is_keyword (String c word)); [reflexivity|].
  destruct (is_variable (String c word)); [reflexivity|].
  destruct (stoi (String c word)) as [n|[]]; reflexivity.
Qed.

(** X5.  A word that does not start with a quote, followed by the end of
    the text, white space or a bracket, is one token, tested in this order:
    a keyword is a KEYWORD; a variable name is an IDENTIFIER; a word that
    [std::stoi] reads is a NUMBER; a word in which [std::stoi] finds no
    digit is an IDENTIFIER; and when [std::stoi] throws
    [std::out_of_range], so does [tokenize].  The tokens of the rest
    follow. *)
Theorem tokenize_word (c : ascii) (word rest : string) :
  all_bytes is_word_byte (String c word) = true ->
  c <> dquote -> c <> squote ->
  stops_at is_word_byte rest ->
  tokenize (String c word ++ rest)
  = match word_token (String c word) with
    | Ok t => res_map (cons t) (tokenize rest)
    | Err e => Err e
    end.
Proof.
  intros Hw Hd Hq Hr. unfold tokenize at 1.
  rewrite (tokenize_loop_word _ c word rest [] Hw Hd Hq Hr).
  destruct (word_token (String c word)) as [t|e]; [|reflexivity].
  apply tokenize_from. rewrite length_append. simpl. lia.
Qed.

Lemma tokenize_word_witness :
  let rest := "[스크럼 1]" in
  all_bytes is_word_byte "캠프1" = true
  /\ stops_at is_word_byte rest
  /\ tokenize ("캠프1" ++ rest)
     = res_map (cons (mkToken IDENTIFIER "캠프1")) (tokenize rest).
Proof.
  cbv zeta. split; [reflexivity|]. split; [reflexivity|].
  exact (tokenize_word "236" (String "186" (String "160" "프1"))
           "[스크럼 1]" eq_refl ltac:(discriminate) ltac:(discriminate)
           eq_refl).
Defined.

(** ** Decimal literals *)

(** The value that [std::stoi] reads from a run of digits. *)
Definition digits_value (digits : string) : Z := fst (read_digits digits 0 false).

Lemma isdigit_cases (c : ascii) :
  isdigit c = true ->
  In c ["0"; "1"; "2"; "3"; "4"; "5"; "6"; "7"; "8"; "9"]%char.
Proof.
  destruct c as [[] [] [] [] [] [] [] []]; intros H;
    try discriminate H; cbn; tauto.
Qed.

Lemma read_digits_seen (s : string) (acc : Z) (seen : bool) :
  (0 <= acc)%Z ->
  (0 <= fst (read_digits s acc seen))%Z
  /\ (seen = true -> snd (read_digits s acc seen) = true)
  /\ fst (read_digits s acc seen) = fst (read_digits s acc true).
Proof.
  revert acc seen. induction s as [|c r IH]; intros acc seen Hacc;
    cbn [read_digits].
  - cbn [fst snd]. auto.
  - destruct (isdigit c) eqn:Hd; [|cbn [fst snd]; auto].
    assert (0 <= Z.of_N (N_of_ascii c) - 48)%Z as Hc.
    { unfold isdigit in Hd. apply andb_prop in Hd as [Hd _].
      apply N.leb_le in Hd. lia. }
    destruct (IH (10 * acc + (Z.of_N (N_of_ascii c) - 48))%Z true
                ltac:(lia)) as (H1 & H2 & H3).
    auto.
Qed.

Lemma stoi_digit_head (c : ascii) (r : string) :
  isdigit c = true ->
  stoi (String c r)
  = (let '(magnitude, seen) :=
       read_digits r (Z.of_N (N_of_ascii c) - 48) true in
     if negb seen then Err (invalid_argument "stoi")
     else
       if ((INT_MIN <=? magnitude)%Z && (magnitude <=? INT_MAX)%Z)
       then Ok magnitude
       else Err (out_of_range "stoi"))
  /\ digits_value (String c r)
     = fst (read_digits r (Z.of_N (N_of_ascii c) - 48) true).
Proof.
  intros Hd. apply isdigit_cases in Hd. cbn in Hd.
  repeat (destruct Hd as [<-|Hd]; [split; reflexivity|]).
  elim Hd.
Qed.

Lemma stoi_digits (c : ascii) (r : string) :
  isdigit c = true ->
  stoi (String c r)
  = if (digits_value (String c r) <=? INT_MAX)%Z
    then Ok (digits_value (String c r))
    else Err (out_of_range "stoi").
Proof.
  intros Hd. destruct (stoi_digit_head c r Hd) as [-> ->].
  assert (0 <= Z.of_N (N_of_ascii c) - 48)%Z as Hc.
  { unfold isdigit in Hd. apply andb_prop in Hd as [Hd' _].
    apply N.leb_le in Hd'. lia. }
  destruct (read_digits_seen r _ true Hc) as (H1 & H2 & _).
  destruct (read_digits r _ true) as [magnitude seen].
  cbn [fst snd] in *. rewrite (H2 eq_refl). cbn [negb].
  replace (INT_MIN <=? magnitude)%Z with true
    by (symmetry; apply Z.leb_le; unfold INT_MIN; lia).
  reflexivity.
Qed.

Lemma digit_leading_word (c : ascii) (r : string) :
  isdigit c = true ->
  is_keyword (String c r) = false /\ is_variable (String c r) = false
  /\ is_word_byte c = true /\ c <> dquote /\ c <> squote.
Proof.
  intros Hd. apply isdigit_cases in Hd. cbn in Hd.
  repeat (destruct Hd as [<-|Hd];
          [repeat split; try discriminate; try reflexivity;
           unfold is_variable; cbn [String.eqb Ascii.eqb Bool.eqb andb];
           unfold Str.starts_with; cbn [prefix];
           now rewrite andb_false_r|]).
  elim Hd.
Qed.

(** X6.  A word of decimal digits is a NUMBER token with the digits as its
    text when its value is at most [INT_MAX]; when the value is larger,
    [tokenize] throws [std::out_of_range]. *)
Theorem tokenize_digits (c : ascii) (digits : string) :
  all_bytes isdigit (String c digits) = true ->
  tokenize (String c digits)
  = if (digits_value (String c digits) <=? INT_MAX)%Z
    then Ok [mkToken NUMBER (String c digits);
             mkToken END_OF_FILE EmptyString]
    else Err (out_of_range "stoi").
Proof.
  intros Hall. pose proof Hall as Hall'.
  cbn [all_bytes] in Hall'. apply andb_prop in Hall' as [Hc Hr].
  destruct (digit_leading_word c digits Hc) as (Hk & Hv & Hw & Hq1 & Hq2).
  assert (all_bytes is_word_byte (String c digits) = true) as Hword.
  { clear - Hall. induction (String c digits) as [|d s IH]; [reflexivity|].
    cbn [all_bytes] in *. apply andb_prop in Hall as [Hd Hs].
    destruct (digit_leading_word d s Hd) as (_ & _ & -> & _).
    now apply IH. }
  pose proof (tokenize_loop_word (String.length (String c digits)) c digits
                EmptyString [] Hword Hq1 Hq2 I) as E.
  rewrite append_nil_r in E.
  unfold tokenize. rewrite E. unfold word_token.
  rewrite Hk, Hv, (stoi_digits c digits Hc).
  destruct (digits_value (String c digits) <=? INT_MAX)%Z; [|reflexivity].
  destruct (String.length (String c digits)) eqn:L; [discriminate L|].
  reflexivity.
Qed.

Lemma tokenize_digits_witness :
  all_bytes isdigit "2147483648" = true
  /\ digits_value "2147483648" = 2147483648%Z
  /\ tokenize "2147483648" = Err (out_of_range "stoi").
Proof.
  split; [reflexivity|]. split; [reflexivity|].
  exact (tokenize_digits "2" "147483648" eq_refl).
Defined.

(** ** Statements and operators *)

Lemma bind_peek_cons {B : Type} (k : Token -> Parser B) (t : Token)
  (rest : list Token) :
  bind peek k (t :: rest) = k t (t :: rest).
Proof. reflexivity. Qed.

Lemma bind_consume_cons {B : Type} (k : Token -> Parser B) (t : Token)
  (rest : list Token) :
  bind consume k (t :: rest) = k t rest.
Proof. reflexivity. Qed.

(** X7.  [parse_statement] looks at the text of the token that starts a
    statement and never at its kind: two tokens of the same text start the
    same statement, so a string literal whose text is a keyword or a
    variable name starts the statement of that keyword or an assignment. *)
Theorem parse_statement_by_text (fuel : nat) (kind kind' : TokenType)
  (text : string) (rest : list Token) :
  fst (parse_statement fuel (mkToken kind text :: rest))
  = fst (parse_statement fuel (mkToken kind' text :: rest))
  /\ forall node unread,
       parse_statement fuel (mkToken kind text :: rest) = (Ok node, unread) ->
       parse_statement fuel (mkToken kind' text :: rest) = (Ok node, unread).
Proof.
  destruct fuel as [|fuel]; [split; [reflexivity | discriminate]|].
  cbn [parse_statement]. rewrite !bind_peek_cons. cbn [value].
  repeat match goal with
         | |- context [if ?b then _ else _] =>
             destruct b;
             [rewrite !bind_consume_cons; cbn [value];
              split; [reflexivity | now intros]|]
         end.
  split; [reflexivity | discriminate].
Qed.

Lemma parse_statement_by_text_witness :
  parse_statement 3
    [mkToken KEYWORD "스크럼"; mkToken NUMBER "1";
     mkToken END_OF_FILE EmptyString]
  = (Ok (PrintNode (NumberNode "1")), [mkToken END_OF_FILE EmptyString])
  /\ parse_statement 3
       [mkToken STRING "스크럼"; mkToken NUMBER "1";
        mkToken END_OF_FILE EmptyString]
     = (Ok (PrintNode (NumberNode "1")), [mkToken END_OF_FILE EmptyString]).
Proof.
  split; [reflexivity|].
  exact (proj2 (parse_statement_by_text 3 KEYWORD STRING "스크럼"
                  [mkToken NUMBER "1"; mkToken END_OF_FILE EmptyString])
           _ _ eq_refl).
Defined.

Lemma parse_expression_loop_operator (fuel : nat) (left_ : ASTNode)
  (o : Token) (op : string) (rest : list Token) :
  is_operator o op ->
  parse_expression_loop (S fuel) left_ (o :: rest)
  = bind parse_simple_expr
      (fun right_ => parse_expression_loop fuel (BinaryOpNode left_ op right_))
      rest.
Proof.
  intros Ho. destruct (is_operator_not_break o op Ho) as [B B'].
  destruct Ho as [K G].
  cbn [parse_expression_loop]. rewrite bind_peek_cons, K.
  cbn [TokenType_eqb]. rewrite bind_peek_cons, B. rewrite bind_peek_cons, B'.
  rewrite bind_consume_cons. unfold bind at 1.
  now rewrite (get_operator_state _ _ rest G).
Qed.

(** X8.  Two operator keywords that [get_operator] maps to the same
    operator are interchangeable: after a term, [parse_expression] builds
    the same tree from either, and leaves the same tokens unread. *)
Theorem operator_synonyms (fuel : nat) (left_ : ASTNode) (a o1 o2 : Token)
  (op : string) (rest : list Token) :
  is_term a left_ -> is_operator o1 op -> is_operator o2 op ->
  parse_expression_loop (S fuel) left_ (o1 :: rest)
  = parse_expression_loop (S fuel) left_ (o2 :: rest)
  /\ parse_expression (S fuel) (a :: o1 :: rest)
     = parse_expression (S fuel) (a :: o2 :: rest).
Proof.
  intros Ha H1 H2.
  assert (parse_expression_loop (S fuel) left_ (o1 :: rest)
          = parse_expression_loop (S fuel) left_ (o2 :: rest)) as E
    by now rewrite (parse_expression_loop_operator fuel _ o1 op rest H1),
         (parse_expression_loop_operator fuel _ o2 op rest H2).
  split; [exact E|].
  unfold parse_expression, bind.
  now rewrite !(parse_simple_expr_term _ _ _ Ha).
Qed.

Lemma operator_synonyms_witness :
  is_term (mkToken NUMBER "1") (NumberNode "1")
  /\ is_operator (mkToken KEYWORD "합") "+"
  /\ is_operator (mkToken KEYWORD "더하기") "+"
  /\ parse_expression 2
       [mkToken NUMBER "1"; mkToken KEYWORD "합"; mkToken NUMBER "2";
        mkToken END_OF_FILE EmptyString]
     = parse_expression 2
         [mkToken NUMBER "1"; mkToken KEYWORD "더하기"; mkToken NUMBER "2";
          mkToken END_OF_FILE EmptyString].
Proof.
  split; [reflexivity|].
  split; [split; reflexivity|]. split; [split; reflexivity|].
  exact (proj2 (operator_synonyms 1 (NumberNode "1") (mkToken NUMBER "1")
                  (mkToken KEYWORD "합") (mkToken KEYWORD "더하기") "+"
                  [mkToken NUMBER "2"; mkToken END_OF_FILE EmptyString]
                  eq_refl (conj eq_refl eq_refl) (conj eq_refl eq_refl))).
Defined.

(** X9.  The keyword of the input request and the six keywords that stand
    for a fixed sentence are terms, but after a term each of them is taken
    for an operator: [get_operator] throws [Unknown operator] with the
    keyword, after the keyword was consumed. *)
Theorem keyword_after_term (fuel : nat) (left_ : ASTNode) (t : Token)
  (rest : list Token) :
  type t = KEYWORD ->
  In (value t)
    ["뭐먹"; "커서"; "지피티"; "제미나이"; "클로드"; "클라인"; "그록"] ->
  (exists node, parse_simple_expr (t :: rest) = (Ok node, rest))
  /\ parse_expression_loop (S fuel) left_ (t :: rest)
     = (Err (runtime_error ("Unknown operator: " ++ value t)), rest).
Proof.
  intros Hk Hin. destruct t as [kind text]. cbn [type value] in *.
  subst kind. cbn [In] in Hin.
  repeat (destruct Hin as [<-|Hin];
          [split; [eexists; reflexivity | reflexivity]|]).
  elim Hin.
Qed.

Lemma keyword_after_term_witness :
  type (mkToken KEYWORD "뭐먹") = KEYWORD
  /\ parse_expression 2
       [mkToken NUMBER "1"; mkToken KEYWORD "뭐먹";
        mkToken END_OF_FILE EmptyString]
     = (Err (runtime_error "Unknown operator: 뭐먹"),
        [mkToken END_OF_FILE EmptyString]).
Proof.
  split; [reflexivity|].
  unfold parse_expression, bind. cbn [parse_simple_expr].
  change (parse_simple_expr
            [mkToken NUMBER "1"; mkToken KEYWORD "뭐먹";
             mkToken END_OF_FILE EmptyString])
    with (@Ok ASTNode (NumberNode "1"),
          [mkToken KEYWORD "뭐먹"; mkToken END_OF_FILE EmptyString]).
  exact (proj2 (keyword_after_term 1 (NumberNode "1")
                  (mkToken KEYWORD "뭐먹")
                  [mkToken END_OF_FILE EmptyString] eq_refl
                  (or_introl eq_refl))).
Defined.

(** X10.  With more fuel than tokens, [parse_statement] throws a
    [std::runtime_error] or returns a tree without a null pointer after
    reading at least one token; the unread tokens are the rest of the
    vector.  The fuel is never used up. *)
Theorem parse_statement_progress (fuel : nat) (tokens : list Token) :
  length tokens < fuel ->
  match parse_statement fuel tokens with
  | (Ok node, unread) =>
      well_formed node = true
      /\ exists read, tokens = (read ++ unread)%list /\ read <> []
  | (Err e, _) => exists what, e = runtime_error what
  end.
Proof.
  intros Hf. pose proof (parses_statement fuel tokens Hf) as H.
  unfold parses in H.
  destruct (parse_statement fuel tokens) as [[node|e] unread]; [|exact H].
  destruct H as [(read & E & Hl) Hw]. split; [exact Hw|].
  exists read. split; [exact E|]. destruct read; [simpl in Hl; lia|].
  discriminate.
Qed.

Lemma parse_statement_progress_witness :
  let tokens := [mkToken IDENTIFIER "캠프1"; mkToken SYMBOL "[";
                 mkToken SYMBOL "]"; mkToken END_OF_FILE EmptyString] in
  length tokens < 5
  /\ parse_statement 5 tokens
     = (Ok (FuncDefNode "캠프1" []), [mkToken END_OF_FILE EmptyString])
  /\ match parse_statement 5 tokens with
     | (Ok node, unread) =>
         well_formed node = true
         /\ exists read, tokens = (read ++ unread)%list /\ read <> []
     | (Err e, _) => exists what, e = runtime_error what
     end.
Proof.
  cbv zeta. split; [simpl; lia|]. split; [reflexivity|].
  exact (parse_statement_progress 5
           [mkToken IDENTIFIER "캠프1"; mkToken SYMBOL "[";
            mkToken SYMBOL "]"; mkToken END_OF_FILE EmptyString]
           (Nat.lt_succ_diag_r 4)).
Defined.

(** X11.  [parse] returns only in front of an END token: a vector that
    holds no END token makes it throw a [std::runtime_error]. *)
Theorem parse_needs_end (tokens : list Token) :
  Forall (fun t => type t <> END_OF_FILE) tokens ->
  exists what, parse tokens = Err (runtime_error what).
Proof.
  intros Hno. pose proof (parse_result tokens) as Hr.
  destruct (parse tokens) as [ast|e] eqn:E.
  - exfalso. unfold parse in E.
    set (more := fun t => negb (TokenType_eqb (type t) END_OF_FILE)) in E.
    destruct (parse_statements (parse_statement (S (length tokens))) more
                (S (length tokens)) [] tokens) as [r unread] eqn:El.
    cbn [fst] in E. subst r.
    destruct (parse_statements_stop _ _ _ _ _ _ _ El)
      as (t & unread' & -> & Hm).
    pose proof (parses_statements (parse_statement (S (length tokens))) more
                  (S (length tokens)) [] tokens) as Hs.
    unfold parses in Hs. rewrite El in Hs.
    destruct Hs as [(read & Er & _) _];
      [intros toks Ht; apply parses_statement; lia | lia | reflexivity |].
    rewrite Forall_forall in Hno. apply (Hno t).
    + rewrite Er. apply in_or_app. right. now left.
    + unfold more in Hm. apply negb_false_iff in Hm.
      destruct (type t); try discriminate. reflexivity.
  - destruct Hr as [what ->]. now exists what.
Qed.

Lemma parse_needs_end_witness :
  Forall (fun t => type t <> END_OF_FILE)
    [mkToken KEYWORD "스크럼"; mkToken NUMBER "1"]
  /\ parse [mkToken KEYWORD "스크럼"; mkToken NUMBER "1"]
     = Err (runtime_error
              "Parser error: Unexpected end of file while peeking.").
Proof.
  assert (Forall (fun t => type t <> END_OF_FILE)
            [mkToken KEYWORD "스크럼"; mkToken NUMBER "1"]) as H
    by (repeat constructor; discriminate).
  split; [exact H|].
  destruct (parse_needs_end _ H) as [what E].
  rewrite E. vm_compute in E. symmetry. exact E.
Defined.

(** X17.  A block that parses is closed: when [parse_block] returns, the
    tokens it has read are the opening token, which it does not look at,
    the tokens of the statements, and a token with the text of the
    close-bracket; the statements hold no null pointer. *)
Theorem parse_block_closed (fuel : nat) (tokens unread : list Token)
  (statements : list ASTNode) :
  length tokens <= fuel ->
  parse_block (parse_statement fuel) fuel tokens = (Ok statements, unread) ->
  forallb well_formed statements = true
  /\ exists opening inner closing,
       tokens = (opening :: inner ++ closing :: unread)%list
       /\ value closing = "]".
Proof.
  intros Hf. unfold parse_block.
  destruct tokens as [|opening tokens1]; [discriminate|].
  rewrite bind_consume_cons. unfold bind at 1.
  set (more := fun t => negb (value t =? "]")).
  pose proof (parses_statements (parse_statement fuel) more fuel []
                tokens1) as Hs.
  unfold parses in Hs.
  destruct (parse_statements (parse_statement fuel) more fuel [] tokens1)
    as [[stmts|e] rest] eqn:El; [|discriminate].
  destruct (parse_statements_stop _ _ _ _ _ _ _ El) as (t & rest' & -> & Hm).
  rewrite bind_consume_cons. unfold ret. intros [= <- <-].
  destruct Hs as [(read & Er & _) Hw];
    [intros toks Ht; apply parses_statement; simpl in Hf; lia
    | simpl in Hf; lia | reflexivity |].
  split; [exact Hw|].
  exists opening, read, t. split; [now rewrite Er|].
  unfold more in Hm. apply negb_false_iff in Hm. now apply String.eqb_eq.
Qed.

Lemma parse_block_closed_witness :
  let tokens := [mkToken SYMBOL "["; mkToken KEYWORD "스크럼";
                 mkToken NUMBER "1"; mkToken SYMBOL "]";
                 mkToken END_OF_FILE EmptyString] in
  length tokens <= 5
  /\ parse_block (parse_statement 5) 5 tokens
     = (Ok [PrintNode (NumberNode "1")], [mkToken END_OF_FILE EmptyString])
  /\ exists opening inner closing,
       tokens
       = (opening :: inner ++ closing
          :: [mkToken END_OF_FILE EmptyString])%list
       /\ value closing = "]".
Proof.
  cbv zeta. split; [simpl; lia|]. split; [reflexivity|].
  exact (proj2 (parse_block_closed 5
                  [mkToken SYMBOL "["; mkToken KEYWORD "스크럼";
                   mkToken NUMBER "1"; mkToken SYMBOL "]";
                   mkToken END_OF_FILE EmptyString]
                  [mkToken END_OF_FILE EmptyString]
                  [PrintNode (NumberNode "1")] (le_n 5) eq_refl)).
Defined.

(** ** The namer during a compilation *)

Lemma collect_body_stable (st : Namer) (body : list ASTNode) :
  Forall (fun node => registered st node = true ->
                      stable st (collect_symbols node)) body ->
  forallb (registered st) body = true ->
  stable st (collect_body collect_symbols body).
Proof.
  induction 1 as [|stmt body Hs _ IH]; cbn [collect_body forallb].
  - intros _. apply stable_ret.
  - intros R. apply andb_prop in R as [R1 R2].
    apply stable_bind; [now apply Hs|]. intros _. now apply IH.
Qed.

Lemma collect_symbols_stable (st : Namer) (node : ASTNode) :
  registered st node = true -> stable st (collect_symbols node).
Proof.
  induction node using ASTNode_nested_ind;
    cbn [collect_symbols registered]; intros Hr;
    repeat (apply andb_prop in Hr as [Hr ?]);
    repeat first
      [ apply stable_ret
      | apply stable_get_cpp_var; assumption
      | apply stable_get_cpp_func; assumption
      | apply collect_body_stable; [assumption | assumption]
      | apply stable_bind; [|intros ?]
      | auto ].
Qed.

(** X12.  [collect_symbols] returns from every state, registers every name
    of the tree and keeps the names that were registered before; run again
    on the same tree it changes nothing. *)
Theorem collect_symbols_idempotent (node : ASTNode) (st : Namer) :
  exists st',
    collect_symbols node st = (Ok tt, st')
    /\ registered st' node = true
    /\ extends st st'
    /\ collect_symbols node st' = (Ok tt, st').
Proof.
  destruct (collects_symbols node st) as ([] & st' & E & X & R & _).
  exists st'. repeat split; try assumption; try apply X.
  destruct (collect_symbols_stable st' node R) as [[] E']. exact E'.
Qed.

(** A property of the namer that no lookup breaks is kept by the
    collector, by the generator and by a whole compilation. *)
Definition preserves {A : Type} (I : Namer -> Prop) (m : M Namer A) : Prop :=
  forall st, I st -> I (snd (m st)).

Lemma preserves_bind {A B : Type} (I : Namer -> Prop) (m : M Namer A)
  (k : A -> M Namer B) :
  preserves I m -> (forall a, preserves I (k a)) -> preserves I (bind m k).
Proof.
  intros Hm Hk st Hi. unfold bind. specialize (Hm st Hi).
  destruct (m st) as [[a|e] st1]; cbn [snd] in *; [now apply Hk | exact Hm].
Qed.

Lemma preserves_ret {A : Type} (I : Namer -> Prop) (a : A) :
  preserves I (ret a).
Proof. intros st Hi. exact Hi. Qed.

Lemma preserves_throw {A : Type} (I : Namer -> Prop) (e : exn) :
  preserves I (@throw Namer A e).
Proof. intros st Hi. exact Hi. Qed.

Section Preservation.

Variable I : Namer -> Prop.
Hypothesis I_var : forall name, preserves I (get_cpp_var name).
Hypothesis I_func : forall name, preserves I (get_cpp_func name).

Lemma collect_body_preserves (body : list ASTNode) :
  Forall (fun node => preserves I (collect_symbols node)) body ->
  preserves I (collect_body collect_symbols body).
Proof.
  induction 1 as [|stmt body Hs _ IH]; cbn [collect_body].
  - apply preserves_ret.
  - apply preserves_bind; auto.
Qed.

Lemma collect_symbols_preserves (node : ASTNode) :
  preserves I (collect_symbols node).
Proof.
  induction node using ASTNode_nested_ind; cbn [collect_symbols];
    repeat first
      [ apply preserves_ret
      | apply I_var
      | apply I_func
      | apply collect_body_preserves; assumption
      | apply preserves_bind; [|intros ?]
      | assumption ].
Qed.

Lemma generate_body_preserves (indent : string) (body : list ASTNode) :
  Forall (fun node => preserves I (generate node)) body ->
  preserves I (generate_body generate indent body).
Proof.
  induction 1 as [|stmt body Hs _ IH]; cbn [generate_body].
  - apply preserves_ret.
  - apply preserves_bind; [assumption|]. intros s.
    apply preserves_bind; [assumption|]. intros ss. apply preserves_ret.
Qed.

Lemma generate_preserves (node : ASTNode) : preserves I (generate node).
Proof.
  induction node using ASTNode_nested_ind; cbn [generate];
    repeat first
      [ apply preserves_ret
      | apply preserves_throw
      | apply I_var
      | apply I_func
      | apply generate_body_preserves; assumption
      | apply preserves_bind; [|intros ?]
      | assumption ].
Qed.

Lemma generate_cpp_code_preserves (ast : list ASTNode) :
  preserves I (generate_cpp_code ast).
Proof.
  unfold generate_cpp_code.
  apply preserves_bind; [intros st Hi; exact Hi|]. intros st.
  apply preserves_bind.
  { induction ast as [|node ast IH]; cbn [generate_functions];
      [apply preserves_ret|].
    apply preserves_bind.
    - destruct (is_FuncDefNode node); [|apply preserves_ret].
      apply preserves_bind; [apply generate_preserves|].
      intros g. apply preserves_ret.
    - intros s. apply preserves_bind; [exact IH|].
      intros ss. apply preserves_ret. }
  intros functions. apply preserves_bind.
  { induction ast as [|node ast IH]; cbn [generate_main];
      [apply preserves_ret|].
    apply preserves_bind.
    - destruct (negb (is_FuncDefNode node)); [|apply preserves_ret].
      apply preserves_bind; [apply generate_preserves|].
      intros g. apply preserves_ret.
    - intros s. apply preserves_bind; [exact IH|].
      intros ss. apply preserves_ret. }
  intros main. apply preserves_ret.
Qed.

Lemma translate_to_cpp_establishes (code : string) (st : Namer) :
  I reset -> I (snd (translate_to_cpp code st)).
Proof.
  intros Hr. unfold translate_to_cpp. unfold bind at 1. cbn [put].
  destruct (tokenize code) as [tokens|e]; [|exact Hr].
  destruct (parse tokens) as [ast|e]; [|exact Hr].
  apply preserves_bind; [|intros _; apply generate_cpp_code_preserves
                         |exact Hr].
  apply collect_body_preserves, Forall_forall.
  intros node _. apply collect_symbols_preserves.
Qed.

End Preservation.

(** The entries of a map are in strictly increasing order of their keys. *)
Fixpoint sorted_keys (m : StdMap.t) : Prop :=
  match m with
  | [] => True
  | (k, _) :: r =>
      match r with
      | [] => True
      | (k', _) :: _ => String.compare k k' = Lt
      end /\ sorted_keys r
  end.

(** The counters are the sizes of the maps, and the maps are sorted. *)
Definition namer_counted (st : Namer) : Prop :=
  var_counter st = Z.of_nat (length (variable_map st))
  /\ func_counter st = Z.of_nat (length (function_map st))
  /\ sorted_keys (variable_map st) /\ sorted_keys (function_map st).

Lemma assign_sorted (k v : string) (m : StdMap.t) :
  sorted_keys m -> sorted_keys (StdMap.assign k v m).
Proof.
  induction m as [|[k1 v1] r IH]; cbn [StdMap.assign sorted_keys].
  - auto.
  - intros [H1 Hr]. destruct (String.compare k k1) eqn:Hc.
    + apply String.compare_eq_iff in Hc. subst k1.
      cbn [sorted_keys]. auto.
    + cbn [sorted_keys]. auto.
    + specialize (IH Hr). cbn [sorted_keys]. split; [|exact IH].
      assert (String.compare k1 k = Lt) as Hlt
        by (rewrite String.compare_antisym, Hc; reflexivity).
      destruct r as [|[k2 v2] r']; cbn [StdMap.assign]; [exact Hlt|].
      destruct (String.compare k k2); assumption.
Qed.

Lemma assign_length (k v : string) (m : StdMap.t) :
  StdMap.find k m = None ->
  length (StdMap.assign k v m) = S (length m).
Proof.
  induction m as [|[k1 v1] r IH]; cbn [StdMap.assign StdMap.find length];
    [reflexivity|].
  destruct (String.eqb_spec k k1) as [->|Hn]; [discriminate|].
  intros Hf. destruct (String.compare k k1) eqn:Hc.
  - apply String.compare_eq_iff in Hc. contradiction.
  - reflexivity.
  - cbn [length]. now rewrite IH.
Qed.

Lemma namer_counted_var (name : string) :
  preserves namer_counted (get_cpp_var name).
Proof.
  intros st (Hv & Hf & Sv & Sf). rewrite get_cpp_var_eq.
  destruct (StdMap.find name (variable_map st)) eqn:E; cbn [snd].
  - repeat split; assumption.
  - unfold namer_counted.
    cbn [variable_map var_counter function_map func_counter].
    rewrite (assign_length _ _ _ E).
    repeat split; try assumption; [lia | now apply assign_sorted].
Qed.

Lemma namer_counted_func (name : string) :
  preserves namer_counted (get_cpp_func name).
Proof.
  intros st (Hv & Hf & Sv & Sf). rewrite get_cpp_func_eq.
  destruct (StdMap.find name (function_map st)) eqn:E; cbn [snd].
  - repeat split; assumption.
  - unfold namer_counted.
    cbn [variable_map var_counter function_map func_counter].
    rewrite (assign_length _ _ _ E).
    repeat split; try assumption; [lia | now apply assign_sorted].
Qed.

(** X13.  In a namer whose counters are the sizes of its maps and whose
    maps are sorted by their keys, a lookup keeps this so.  A variable name
    that is new gets the prefix [var_] and the number of the variables
    registered before it, and the counter goes up by one; a name that is
    registered gets its name again and the namer stays as it is. *)
Theorem namer_lookup_counted (name : string) (st : Namer) :
  namer_counted st ->
  namer_counted (snd (get_cpp_var name st))
  /\ namer_counted (snd (get_cpp_func name st))
  /\ (StdMap.find name (variable_map st) = None ->
      get_cpp_var name st
      = (Ok ("var_" ++ to_string (Z.of_nat (length (variable_map st)))),
         mkNamer
           (StdMap.assign name
              ("var_" ++ to_string (Z.of_nat (length (variable_map st))))
              (variable_map st))
           (Z.of_nat (length (variable_map st)) + 1)
           (function_map st) (func_counter st)))
  /\ (forall v, StdMap.find name (variable_map st) = Some v ->
                get_cpp_var name st = (Ok v, st)).
Proof.
  intros H. split; [now apply namer_counted_var|].
  split; [now apply namer_counted_func|].
  destruct H as (Hv & _). rewrite get_cpp_var_eq. split.
  - intros ->. cbv zeta. now rewrite Hv.
  - now intros v ->.
Qed.

Lemma namer_lookup_counted_witness :
  namer_counted reset
  /\ StdMap.find "밥" (variable_map reset) = None
  /\ get_cpp_var "밥" reset = (Ok "var_0", mkNamer [("밥", "var_0")] 1 [] 0).
Proof.
  assert (namer_counted reset) as H by (repeat split).
  split; [exact H|]. split; [reflexivity|].
  destruct (namer_lookup_counted "밥" reset H) as (_ & _ & Hn & _).
  exact (Hn eq_refl).
Defined.

Lemma namer_inv_var (name : string) : preserves namer_inv (get_cpp_var name).
Proof. intros st H. now apply get_cpp_var_inv. Qed.

Lemma namer_inv_func (name : string) :
  preserves namer_inv (get_cpp_func name).
Proof. intros st H. now apply get_cpp_func_inv. Qed.

(** X14.  Whatever the source text and whether the compilation returns or
    throws, [translate_to_cpp] leaves a namer in which every generated name
    is the prefix of its map and a number below the counter, no two source
    names share a generated name, the counters are the sizes of the maps,
    and the maps are sorted by the bytes of the source names, which is the
    order of the declarations in the document. *)
Theorem translate_to_cpp_namer (code : string) (st : Namer) :
  namer_inv (snd (translate_to_cpp code st))
  /\ namer_counted (snd (translate_to_cpp code st)).
Proof.
  split.
  - apply translate_to_cpp_establishes;
      [exact namer_inv_var | exact namer_inv_func | exact namer_inv_reset].
  - apply translate_to_cpp_establishes;
      [exact namer_counted_var | exact namer_counted_func | repeat split].
Qed.

(** ** String literals in the document *)

(** The tree holds a string literal with these bytes. *)
Fixpoint holds_string (span : string) (node : ASTNode) : bool :=
  match node with
  | StringNode value => span =? value
  | NullNode | NumberNode _ | InputNode | VariableNode _ | FuncCallNode _ =>
      false
  | BinaryOpNode left_ _ right_ =>
      holds_string span left_ || holds_string span right_
  | AssignNode _ expr | PrintNode expr | ReturnNode expr =>
      holds_string span expr
  | IfNode condition body | WhileNode condition body =>
      holds_string span condition || existsb (holds_string span) body
  | FuncDefNode _ body => existsb (holds_string span) body
  end.

(** The text [s] stands somewhere in [document]. *)
Definition occurs_in (s document : string) : Prop :=
  exists before after, document = before ++ s ++ after.

Lemma occurs_in_refl (s : string) : occurs_in s s.
Proof. exists EmptyString, EmptyString. now rewrite append_nil_r. Qed.

Lemma occurs_in_append_l (s a b : string) :
  occurs_in s a -> occurs_in s (a ++ b).
Proof.
  intros (before & after & ->). exists before, (after ++ b).
  now rewrite !append_assoc.
Qed.

Lemma occurs_in_append_r (s a b : string) :
  occurs_in s b -> occurs_in s (a ++ b).
Proof.
  intros (before & after & ->). exists (a ++ before), after.
  now rewrite !append_assoc.
Qed.

Create HintDb occurs.

#[local] Hint Resolve occurs_in_refl occurs_in_append_l occurs_in_append_r
  : occurs.

Lemma render_body_occurs (st : Namer) (s indent : string)
  (body : list ASTNode) :
  Exists (fun node => occurs_in s (render st node)) body ->
  occurs_in s (render_body (render st) indent body).
Proof.
  induction 1 as [stmt body H|stmt body _ IH]; cbn [render_body];
    auto 6 with occurs.
Qed.

Lemma concat_map_occurs {A : Type} (f : A -> string) (s : string) (x : A)
  (l : list A) :
  In x l -> occurs_in s (f x) -> occurs_in s (Str.concat_map f l).
Proof.
  induction l as [|y l IH]; cbn [In Str.concat_map]; [contradiction|].
  intros [->|Hin] Hx; auto with occurs.
Qed.

(** The text of a tree that holds a string literal holds the wrapper text
    with the bytes of the literal in between. *)
Lemma render_holds_string (st : Namer) (span : string) (node : ASTNode) :
  holds_string span node = true ->
  occurs_in ("MolObject(std::string(" ++ dq ++ span ++ dq ++ "))")
    (render st node).
Proof.
  induction node using ASTNode_nested_ind;
    cbn [holds_string render]; intros Hh; try discriminate;
    repeat match goal with
      | H : (_ || _) = true |- _ => apply orb_prop in H as [H|H]
      end;
    try match goal with
      | Hall : Forall _ ?body, Hex : existsb _ ?body = true |- _ =>
          apply (existsb_Forall_impl _ _ _ Hall) in Hex;
          pose proof (fun indent =>
                        render_body_occurs st _ indent body Hex)
      end;
    auto 8 with occurs.
  apply String.eqb_eq in Hh. subst. apply occurs_in_refl.
Qed.

Lemma tokenize_space (code : string) :
  tokenize (String " " code) = tokenize code.
Proof. reflexivity. Qed.

(** The tokens of a print statement of a quoted span. *)
Lemma tokenize_print_quoted (quote : ascii) (span : string) :
  quote = dquote \/ quote = squote ->
  Str.contains quote span = false ->
  tokenize ("스크럼 " ++ String quote (span ++ String quote EmptyString))
  = Ok [mkToken KEYWORD "스크럼"; mkToken STRING span;
        mkToken END_OF_FILE EmptyString].
Proof.
  intros Hq Hs.
  set (quoted := String quote (span ++ String quote EmptyString)).
  change ("스크럼 " ++ quoted) with ("스크럼" ++ String " " quoted).
  unfold tokenize. rewrite tokenize_loop_word;
    [|reflexivity|discriminate|discriminate|reflexivity].
  change (word_token "스크럼") with (Ok (mkToken KEYWORD "스크럼")).
  cbv beta iota.
  rewrite tokenize_from
    by (rewrite length_append; cbn [String.length]; lia).
  rewrite tokenize_space. unfold quoted.
  now rewrite (tokenize_quoted quote span EmptyString Hq Hs).
Qed.

Lemma index_none_occurs (s document : string) :
  s <> EmptyString -> index 0 s document = None -> ~ occurs_in s document.
Proof.
  intros Hs Hi (before & after & ->).
  apply (index_correct3 0 (String.length before) s _ Hi Hs (Nat.le_0_l _)).
  now rewrite substring_skip_0, substring_0_append.
Qed.

(** The document of a tree in which the names are registered holds the
    wrapper text of every string literal of the tree. *)
Lemma generate_cpp_code_holds_string (span : string) (ast : list ASTNode)
  (st : Namer) :
  wf_nodes ast -> forallb (registered st) ast = true ->
  existsb (holds_string span) ast = true ->
  exists document,
    generate_cpp_code ast st = (Ok document, st)
    /\ occurs_in ("MolObject(std::string(" ++ dq ++ span ++ dq ++ "))")
         document.
Proof.
  intros Hw Hr Hh. eexists. split.
  - unfold generate_cpp_code. unfold bind at 1. cbn [get].
    unfold bind at 1. rewrite (generate_functions_text st ast Hw Hr).
    unfold bind at 1. rewrite (generate_main_text st ast Hw Hr).
    reflexivity.
  - apply existsb_exists in Hh as (node & Hin & Hn).
    apply (render_holds_string st) in Hn.
    destruct (is_FuncDefNode node) eqn:Hf.
    + do 5 apply occurs_in_append_r. apply occurs_in_append_l.
      apply (concat_map_occurs _ _ node);
        [apply filter_In; now split | auto with occurs].
    + do 8 apply occurs_in_append_r. apply occurs_in_append_l.
      apply (concat_map_occurs _ _ node);
        [apply filter_In; split; [exact Hin | now rewrite Hf]
        | auto with occurs].
Qed.

(** C10, as the code has it.  A quoted span of the source becomes a STRING
    token that holds the bytes between the quotes as they are;
    [parse_simple_expr] turns a STRING token that it reads as a term into a
    [StringNode] with the same bytes; the node is emitted as the fixed
    wrapper text with these bytes in between, whatever they are; the
    document of every tree that holds the node holds this text; and the
    document of the statement that prints the quoted span is the preamble,
    no declaration, and [main] with the print of the wrapper text. *)
Theorem string_literal_verbatim (quote : ascii) (span rest : string)
  (tokens : list Token) (st : Namer) :
  quote = dquote \/ quote = squote ->
  Str.contains quote span = false ->
  tokenize (String quote (span ++ String quote rest))
  = res_map (cons (mkToken STRING span)) (tokenize rest)
  /\ tokenize (String quote span)
     = Ok [mkToken STRING span; mkToken END_OF_FILE EmptyString]
  /\ parse_simple_expr (mkToken STRING span :: tokens)
     = (Ok (StringNode span), tokens)
  /\ generate (StringNode span) st
     = (Ok ("MolObject(std::string(" ++ dq ++ span ++ dq ++ "))"), st)
  /\ (forall ast st0,
         wf_nodes ast -> existsb (holds_string span) ast = true ->
         exists st' document before after,
           collect_body collect_symbols ast st0 = (Ok tt, st')
           /\ generate_cpp_code ast st' = (Ok document, st')
           /\ document
              = before
                ++ ("MolObject(std::string(" ++ dq ++ span ++ dq ++ "))")
                ++ after)
  /\ translate_to_cpp
       ("스크럼 " ++ String quote (span ++ String quote EmptyString)) st
     = (Ok (preamble ++ nl ++ nl
            ++ "int main() {" ++ nl
            ++ "    mollang_print("
            ++ ("MolObject(std::string(" ++ dq ++ span ++ dq ++ "))")
            ++ ");" ++ nl
            ++ "    return 0;" ++ nl
            ++ "}" ++ nl),
        reset).
Proof.
  intros Hq Hs.
  split; [now apply tokenize_quoted|].
  split; [now apply tokenize_unterminated|].
  split; [reflexivity|]. split; [reflexivity|]. split.
  - intros ast st0 Hw Hh.
    destruct (collects_ast ast st0) as ([] & st' & Ec & _ & Hr & _).
    destruct (generate_cpp_code_holds_string span ast st' Hw Hr Hh)
      as (document & Eg & before & after & Ed).
    now exists st', document, before, after.
  - unfold translate_to_cpp. rewrite (tokenize_print_quoted quote span Hq Hs).
    change (parse [mkToken KEYWORD "스크럼"; mkToken STRING span;
                   mkToken END_OF_FILE EmptyString])
      with (Ok [PrintNode (StringNode span)]).
    unfold bind at 1. cbn [put]. unfold bind at 1.
    change (collect_body collect_symbols [PrintNode (StringNode span)] reset)
      with (Ok tt, reset).
    cbv beta iota.
    unfold generate_cpp_code. unfold bind at 1. cbn [get].
    unfold bind at 1.
    rewrite (generate_functions_text reset [PrintNode (StringNode span)])
      by reflexivity.
    unfold bind at 1.
    rewrite (generate_main_text reset [PrintNode (StringNode span)])
      by reflexivity.
    unfold ret.
    cbn [filter is_FuncDefNode negb Str.concat_map render declarations
           reset function_map variable_map StdMap.empty].
    rewrite !append_assoc. reflexivity.
Qed.

Lemma string_literal_verbatim_witness :
  let span := "a" ++ dq ++ "b" ++ String "092"%char nl ++ "c" in
  (squote = dquote \/ squote = squote)
  /\ Str.contains squote span = false
  /\ tokenize (String squote (span ++ String squote " 1"))
     = res_map (cons (mkToken STRING span)) (tokenize " 1")
  /\ generate (StringNode span) reset
     = (Ok ("MolObject(std::string(" ++ dq ++ span ++ dq ++ "))"), reset)
  /\ translate_to_cpp
       ("스크럼 " ++ String squote (span ++ String squote EmptyString)) reset
     = (Ok (preamble ++ nl ++ nl
            ++ "int main() {" ++ nl
            ++ "    mollang_print("
            ++ ("MolObject(std::string(" ++ dq ++ span ++ dq ++ "))")
            ++ ");" ++ nl
            ++ "    return 0;" ++ nl
            ++ "}" ++ nl),
        reset).
Proof.
  cbv zeta. split; [now right|]. split; [reflexivity|].
  pose proof (string_literal_verbatim squote
                ("a" ++ dq ++ "b" ++ String "092"%char nl ++ "c") " 1" []
                reset
                (or_intror eq_refl) eq_refl) as (T & _ & _ & G & _ & D).
  split; [exact T|]. split; [exact G | exact D].
Defined.

(** C10, as it is stated, fails.  The parser reads a STRING token as a term
    only where it expects a term.  Where it expects a statement it looks at
    the text of the token alone: the STRING token of ['스크럼' 1] is taken
    as the keyword of the print statement, and the document holds the print
    of the number and no wrapper text of a string; the STRING token of
    ['abc'] starts no statement, and there is no document. *)
Lemma string_token_as_keyword :
  let document :=
    preamble ++ nl ++ nl
    ++ "int main() {" ++ nl
    ++ "    mollang_print(MolObject(1));" ++ nl
    ++ "    return 0;" ++ nl
    ++ "}" ++ nl in
  tokenize "'스크럼' 1"
  = Ok [mkToken STRING "스크럼"; mkToken NUMBER "1";
        mkToken END_OF_FILE EmptyString]
  /\ translate_to_cpp "'스크럼' 1" reset = (Ok document, reset)
  /\ ~ occurs_in "MolObject(std::string(" document
  /\ ~ occurs_in "스크럼" document
  /\ tokenize "'abc'"
     = Ok [mkToken STRING "abc"; mkToken END_OF_FILE EmptyString]
  /\ fst (translate_to_cpp "'abc'" reset)
     = Err (runtime_error "Invalid statement start: 'abc'").
Proof.
  cbv zeta. split; [reflexivity|]. split; [vm_compute; reflexivity|].
  split; [apply index_none_occurs; [discriminate | vm_compute; reflexivity]|].
  split; [apply index_none_occurs; [discriminate | vm_compute; reflexivity]|].
  split; reflexivity.
Qed.

(** ** The entry point

    [main] with what it reads from and does to its surroundings made
    explicit: the files it can read, the files it can open for writing, and
    the status that [system] returns for a command.  [argv[0]] is
    [program], the other arguments are [args].  The globals of the namer
    are as the program starts with them, which is the reset state. *)

Record World : Type := mkWorld {
  read_file : string -> option string;
  writable : string -> bool;
  system : string -> Z
}.

Record Run : Type := mkRun {
  status : Z;
  cout : string;
  cerr : string;
  files : list (string * string);
  commands : list string
}.

(** What a reader of a [const char*] sees of the bytes of a [std::string]:
    the bytes in front of the first NUL byte. *)
Fixpoint c_str (s : string) : string :=
  match s with
  | EmptyString => EmptyString
  | String c s' =>
      if Ascii.eqb c "000"%char then EmptyString else String c (c_str s')
  end.

(** [e.what()]: a [const char*] to the message that the exception was made
    with. *)
Definition what (e : exn) : string :=
  match e with
  | invalid_argument w | out_of_range w | runtime_error w => c_str w
  | null_dereference | out_of_fuel => EmptyString
  end.

Definition main (program : string) (args : list string) (w : World) : Run :=
  match args with
  | [input_filename] =>
      let size := String.length input_filename in
      if (size <=? 4)%nat
         || negb (Str.substr input_filename (size - 4) 4 =? ".mol")
      then
        mkRun 1 EmptyString
          ("오류: 입력 파일은 '.mol' 확장자여야 합니다." ++ nl) [] []
      else
        match read_file w input_filename with
        | None =>
            mkRun 1 EmptyString
              ("오류: '" ++ input_filename ++ "' 파일을 열 수 없습니다." ++ nl)
              [] []
        | Some mollang_code =>
            match fst (translate_to_cpp mollang_code reset) with
            | Ok cpp_code =>
                let output_basename :=
                  Str.substr input_filename 0 (size - 4) in
                let cpp_filename := output_basename ++ ".cpp" in
                let exe_filename := output_basename in
                if negb (writable w cpp_filename) then
                  mkRun 1 EmptyString
                    ("오류: '" ++ cpp_filename
                     ++ "' 파일을 생성할 수 없습니다." ++ nl) [] []
                else
                  let compile_command :=
                    "g++ -std=c++17 -o " ++ exe_filename ++ " "
                    ++ cpp_filename in
                  let result := system w compile_command in
                  let announced :=
                    "Mollang 코드를 C++로 변환했습니다: " ++ cpp_filename
                    ++ nl ++ "컴파일 중: " ++ compile_command ++ nl in
                  if (result =? 0)%Z then
                    mkRun 0
                      (announced ++ "컴파일 성공! 실행 파일 생성: "
                       ++ exe_filename ++ nl)
                      EmptyString [(cpp_filename, cpp_code)]
                      [compile_command]
                  else
                    mkRun 0 announced
                      ("컴파일 오류가 발생했습니다." ++ nl)
                      [(cpp_filename, cpp_code)] [compile_command]
            | Err e =>
                mkRun 1 EmptyString ("오류: " ++ what e ++ nl) [] []
            end
        end
  | _ =>
      mkRun 1 EmptyString
        ("사용법: " ++ program ++ " <입력_파일.mol>" ++ nl) [] []
  end.

Lemma mol_extension (name : string) :
  ((String.length name <=? 4)%nat
   || negb (Str.substr name (String.length name - 4) 4 =? ".mol")) = false
  <-> exists base, base <> EmptyString /\ name = base ++ ".mol".
Proof.
  unfold Str.substr. split.
  - intros H. apply orb_false_elim in H as [H1 H2].
    apply Nat.leb_gt in H1. apply negb_false_iff, String.eqb_eq in H2.
    destruct (substring_take name (String.length name - 4) ltac:(lia))
      as (u & E & L).
    set (base := substring 0 (String.length name - 4) name) in *.
    assert (String.length base = String.length name - 4) as Lb.
    { apply (f_equal String.length) in E. rewrite length_append in E. lia. }
    rewrite E in H2 at 2. rewrite <- Lb, substring_skip_0 in H2.
    assert (String.length u = 4) as Lu by lia.
    rewrite <- Lu, substring_all in H2. subst u.
    exists base. split; [|exact E].
    intros Hb. rewrite Hb in Lb. simpl in Lb. lia.
  - intros (base & Hb & ->). rewrite length_append. cbn [String.length].
    apply orb_false_intro.
    + apply Nat.leb_gt. destruct base; [contradiction | simpl; lia].
    + replace (String.length base + 4 - 4) with (String.length base) by lia.
      now rewrite substring_skip_0.
Qed.

(** X15.  [main] returns 0 exactly when it is given one argument that is a
    non-empty base name followed by [.mol], the file can be read, its text
    compiles and the file of the base name followed by [.cpp] can be opened
    for writing.  It has then written the document to that file and run the
    toolchain on it once; the status that the toolchain returns does not
    change the status of [main]. *)
Theorem main_success (program : string) (args : list string) (w : World) :
  status (main program args w) = 0%Z
  <-> exists base code document,
        base <> EmptyString
        /\ args = [base ++ ".mol"]
        /\ read_file w (base ++ ".mol") = Some code
        /\ fst (translate_to_cpp code reset) = Ok document
        /\ writable w (base ++ ".cpp") = true
        /\ files (main program args w) = [(base ++ ".cpp", document)]
        /\ commands (main program args w)
           = ["g++ -std=c++17 -o " ++ base ++ " " ++ base ++ ".cpp"].
Proof.
  split.
  - unfold main.
    destruct args as [|name [|]]; try discriminate.
    destruct (_ || _) eqn:Hext; [discriminate|].
    apply mol_extension in Hext as (base & Hb & ->).
    destruct (read_file w (base ++ ".mol")) as [code|] eqn:Hr;
      [|discriminate].
    destruct (fst (translate_to_cpp code reset)) as [document|e] eqn:Ht;
      [|discriminate].
    unfold Str.substr. rewrite length_append. cbn [String.length].
    replace (String.length base + 4 - 4) with (String.length base) by lia.
    rewrite substring_0_append.
    destruct (writable w (base ++ ".cpp")) eqn:Hw; [|discriminate].
    cbn [negb]. intros _. exists base, code, document.
    destruct (system w _ =? 0)%Z; repeat split; assumption.
  - intros (base & code & document & Hb & -> & Hr & Ht & Hw & _).
    unfold main.
    replace (_ || _) with false
      by (symmetry; apply mol_extension; now exists base).
    rewrite Hr, Ht.
    unfold Str.substr. rewrite length_append. cbn [String.length].
    replace (String.length base + 4 - 4) with (String.length base) by lia.
    rewrite substring_0_append, Hw. cbn [negb].
    destruct (system w _ =? 0)%Z; reflexivity.
Qed.

Lemma c_str_cut (shown cut : string) :
  all_bytes (fun c => negb (Ascii.eqb c "000"%char)) shown = true ->
  cut = EmptyString \/ (exists cut', cut = String "000"%char cut') ->
  c_str (shown ++ cut) = shown.
Proof.
  intros Hs Hc. induction shown as [|c shown IH]; cbn [append].
  - destruct Hc as [->|(cut' & ->)]; reflexivity.
  - cbn [all_bytes] in Hs. apply andb_prop in Hs as [H1 H2].
    cbn [c_str]. apply negb_true_iff in H1. rewrite H1. now rewrite IH.
Qed.

(** X16.  When [main] does not return 0 it returns 1, writes no file, runs
    no command and prints nothing on the standard output; when the text of
    the file does not compile, the diagnostic is [what()] of the exception,
    printed as a C string: the bytes of the message of the exception that
    stand in front of its first NUL byte, all of them when it has none. *)
Theorem main_failure (program : string) (args : list string) (w : World) :
  status (main program args w) <> 0%Z ->
  status (main program args w) = 1%Z
  /\ files (main program args w) = []
  /\ commands (main program args w) = []
  /\ cout (main program args w) = EmptyString
  /\ forall name code e,
       args = [name] ->
       (exists base, base <> EmptyString /\ name = base ++ ".mol") ->
       read_file w name = Some code ->
       fst (translate_to_cpp code reset) = Err e ->
       cerr (main program args w) = "오류: " ++ what e ++ nl
       /\ forall message shown cut,
            e = runtime_error message \/ e = out_of_range message ->
            message = shown ++ cut ->
            all_bytes (fun c => negb (Ascii.eqb c "000"%char)) shown = true ->
            cut = EmptyString \/ (exists cut', cut = String "000"%char cut') ->
            cerr (main program args w) = "오류: " ++ shown ++ nl.
Proof.
  intros Hs.
  assert (status (main program args w) = 1%Z
          /\ files (main program args w) = []
          /\ commands (main program args w) = []
          /\ cout (main program args w) = EmptyString) as H.
  { revert Hs. unfold main.
    repeat match goal with
           | |- context [match ?x with _ => _ end] => destruct x
           end; cbn [status files commands cout]; intros H;
      try (now elim H); repeat split. }
  destruct H as (H1 & H2 & H3 & H4).
  split; [exact H1|]. split; [exact H2|]. split; [exact H3|].
  split; [exact H4|].
  intros name code e -> Hext Hr Ht. unfold main.
  apply mol_extension in Hext. rewrite Hext, Hr, Ht. cbn [cerr].
  split; [reflexivity|].
  intros message shown cut He -> Hshown Hcut.
  destruct He as [->| ->]; cbn [what]; now rewrite c_str_cut.
Qed.

Definition sample_world : World :=
  mkWorld (fun name => if name =? "a.mol" then Some "스크럼 1" else
                       if name =? "b.mol" then Some "스크럼" else None)
    (fun _ => true) (fun _ => 1%Z).

Lemma main_success_witness :
  system sample_world "g++ -std=c++17 -o a a.cpp" = 1%Z
  /\ status (main "mol" ["a.mol"] sample_world) = 0%Z.
Proof.
  split; [reflexivity|].
  apply (proj2 (main_success "mol" ["a.mol"] sample_world)).
  exists "a", "스크럼 1".
  eexists. split; [discriminate|]. split; [reflexivity|].
  split; [reflexivity|]. split; [vm_compute; reflexivity|].
  split; [reflexivity|]. split; vm_compute; reflexivity.
Defined.

(** A file that holds one word with a NUL byte in it. *)
Definition nul_world : World :=
  mkWorld (fun name => if name =? "c.mol"
                       then Some (String "a" (String "000"%char "b"))
                       else None)
    (fun _ => true) (fun _ => 0%Z).

Lemma main_failure_witness :
  status (main "mol" ["c.mol"] nul_world) <> 0%Z
  /\ fst (translate_to_cpp (String "a" (String "000"%char "b")) reset)
     = Err (runtime_error
              ("Invalid statement start: 'a" ++ String "000"%char "b'"))
  /\ files (main "mol" ["c.mol"] nul_world) = []
  /\ cerr (main "mol" ["c.mol"] nul_world)
     = "오류: Invalid statement start: 'a" ++ nl.
Proof.
  assert (status (main "mol" ["c.mol"] nul_world) <> 0%Z) as Hs
    by (vm_compute; discriminate).
  split; [exact Hs|]. split; [reflexivity|].
  destruct (main_failure "mol" ["c.mol"] nul_world Hs)
    as (_ & Hf & _ & _ & He).
  split; [exact Hf|].
  refine (proj2 (He "c.mol" (String "a" (String "000"%char "b"))
                   (runtime_error
                      ("Invalid statement start: 'a"
                       ++ String "000"%char "b'"))
                   eq_refl _ eq_refl eq_refl)
            _ "Invalid statement start: 'a" (String "000"%char "b'")
            (or_introl eq_refl) eq_refl eq_refl _).
  - exists "c". split; [discriminate | reflexivity].
  - right. now exists "b'".
Defined.
